(** * GetUserAudio: the capture, transcription and summary pipeline

    A shallow embedding of [src/components/GetUserAudio.tsx].

    The component keeps three module-level variables ([firstString],
    [transcriptionText], [transcriptionIteration]) and, per button, a chunk
    array and the recorder and stream handles.  Every asynchronous call
    ([audioBackend.transcribe], [audioBackend.summarize]) is modelled as a
    pending promise whose [then] callback runs when the environment settles
    it, in any order. *)

From Stdlib Require Import String Ascii List ZArith Lia Bool.
Import ListNotations.

Open Scope string_scope.
Open Scope list_scope.
Open Scope Z_scope.

(** ** JavaScript strings

    Strings are sequences of code units; the model keeps the code units
    U+0000..U+00FF, one [ascii] each. *)
Module JS.

(** [s.length] *)
Definition length (s : string) : Z := Z.of_nat (String.length s).

(** [s.slice(start, end)]: negative indices count from the end, both are
    clamped to the string, and an empty range gives the empty string. *)
Definition slice (s : string) (start end_ : Z) : string :=
  let len := length s in
  let from := if start <? 0 then Z.max (len + start) 0 else Z.min start len in
  let to := if end_ <? 0 then Z.max (len + end_) 0 else Z.min end_ len in
  substring (Z.to_nat from) (Z.to_nat (Z.max (to - from) 0)) s.

(** White space and line terminators of ECMAScript below U+0100:
    TAB, LF, VT, FF, CR, SP and NBSP. *)
Definition isWhiteSpace (c : ascii) : bool :=
  let n := nat_of_ascii c in
  ((9 <=? n) && (n <=? 13) || (n =? 32) || (n =? 160))%nat.

Fixpoint trimStart (s : string) : string :=
  match s with
  | EmptyString => EmptyString
  | String c r => if isWhiteSpace c then trimStart r else s
  end.

Fixpoint trimEnd (s : string) : string :=
  match s with
  | EmptyString => EmptyString
  | String c r =>
      match trimEnd r with
      | EmptyString => if isWhiteSpace c then EmptyString else String c EmptyString
      | r' => String c r'
      end
  end.

(** [s.trim()] *)
Definition trim (s : string) : string := trimEnd (trimStart s).

End JS.

(** ** Blobs and the chunk array *)

Record Blob := mkBlob { blobData : list Byte.byte; blobType : string }.

(** [new Blob(parts, { type })]: the parts' bytes, in order. *)
Definition newBlob (parts : list Blob) (type : string) : Blob :=
  mkBlob (concat (map blobData parts)) type.

(** [chunks.pop()] *)
Definition pop {A} (l : list A) : list A := removelast l.

(** Lines 74-77: [if (chunks.length > 1) chunks.pop(); chunks.push(e.data)]. *)
Definition pushChunk (chunks : list Blob) (data : Blob) : list Blob :=
  (if (1 <? Z.of_nat (List.length chunks)) then pop chunks else chunks) ++ [data].


(** ** Browser objects: tracks, streams, recorders *)

Inductive TrackKind := audio | video.
Inductive ReadyState := live | ended.

(** A [MediaStreamTrack]; [onended] tells whether lines 60-64 attached the
    handler that stops the recorder. *)
Record Track := mkTrack {
  kind : TrackKind;
  readyState : ReadyState;
  onended : bool
}.

Definition Stream := list Track.

(** [track.stop()]: the track ends; no [ended] event is fired. *)
Definition trackStop (t : Track) : Track :=
  mkTrack (kind t) ended (onended t).

Definition isVideo (t : Track) : bool :=
  match kind t with video => true | audio => false end.

Definition isLive (t : Track) : bool :=
  match readyState t with live => true | ended => false end.

(** [stream.active]: some track of the stream has not ended. *)
Definition active (s : Stream) : bool := existsb isLive s.

(** Line 55: [mediaStream.getVideoTracks().forEach(track => track.stop())]. *)
Definition stopVideoTracks (s : Stream) : Stream :=
  map (fun t => if isVideo t then trackStop t else t) s.

(** Lines 59-65: every track of the stream gets the [onended] handler. *)
Definition attachOnended (s : Stream) : Stream :=
  map (fun t => mkTrack (kind t) (readyState t) true) s.

(** Line 119: [mediaStream.getTracks().forEach(track => track.stop())]. *)
Definition stopAllTracks (s : Stream) : Stream := map trackStop s.

Inductive RecorderState := inactive | recording | paused.

Record MediaRecorder := mkRecorder {
  state : RecorderState;
  timeslice : option Z
}.

Definition isInactive (r : MediaRecorder) : bool :=
  match state r with inactive => true | _ => false end.

(** [new MediaRecorder(stream)] *)
Definition newMediaRecorder : MediaRecorder := mkRecorder inactive None.

(** What a rejected promise or a throwing call carries. *)
Inductive Error :=
| NotAllowedError   (* permission denied *)
| NotFoundError     (* no matching device *)
| InvalidStateError
| NotSupportedError (* recording a stream that is not active *)
| TypeError.

(** ** The process

    The module-level variables of lines 25-27, the two component instances,
    the promises in flight, the editors written through [setContent] and the
    console. *)

Inductive Button := MicAudioButton | DesktopAudioButton.

(** The arguments [CaptureAudioGeneric] is instantiated with
    (lines 134-180); [getMediaStream] is the environment's answer and is
    passed to [captureAudio]. *)
Definition captureFrom (b : Button) : string :=
  match b with
  | MicAudioButton => "Microphone"
  | DesktopAudioButton => "Desktop"
  end.

Definition timeSlice (b : Button) : Z :=
  match b with
  | MicAudioButton => 5000
  | DesktopAudioButton => 10000
  end.

(** One rendered component: the [chunks] array its handler closes over, the
    two [useState] cells and the editor its props point to. *)
Record Instance := mkInstance {
  chunks : list Blob;
  mediaRecorder : option MediaRecorder;
  mediaStream : option Stream;
  editorRef : nat
}.

(** A promise in flight, named after its [then] callback. *)
Inductive Task :=
| TranscribeThenSetFirst (blob : Blob)                     (* lines 85-87 *)
| TranscribeThenAppend (blob : Blob)                       (* lines 93-95 *)
| SummarizeThenSetContent (text : string) (editor : nat).  (* lines 99-102 *)

Inductive LogEntry :=
| LogError (e : Error)
| LogText (s : string).

Record Process := mkProcess {
  firstString : string;
  transcriptionText : string;
  transcriptionIteration : Z;
  mic : Instance;
  desktop : Instance;
  pending : list Task;
  editors : list (nat * string);   (* [setContent] calls, latest first *)
  console : list LogEntry
}.

Definition instance (b : Button) (p : Process) : Instance :=
  match b with
  | MicAudioButton => mic p
  | DesktopAudioButton => desktop p
  end.

Definition other (b : Button) : Button :=
  match b with
  | MicAudioButton => DesktopAudioButton
  | DesktopAudioButton => MicAudioButton
  end.

Definition setInstance (b : Button) (i : Instance) (p : Process) : Process :=
  match b with
  | MicAudioButton =>
      mkProcess (firstString p) (transcriptionText p) (transcriptionIteration p)
        i (desktop p) (pending p) (editors p) (console p)
  | DesktopAudioButton =>
      mkProcess (firstString p) (transcriptionText p) (transcriptionIteration p)
        (mic p) i (pending p) (editors p) (console p)
  end.

Definition setFirstString (s : string) (p : Process) : Process :=
  mkProcess s (transcriptionText p) (transcriptionIteration p)
    (mic p) (desktop p) (pending p) (editors p) (console p).

Definition setTranscriptionText (s : string) (p : Process) : Process :=
  mkProcess (firstString p) s (transcriptionIteration p)
    (mic p) (desktop p) (pending p) (editors p) (console p).

Definition setTranscriptionIteration (n : Z) (p : Process) : Process :=
  mkProcess (firstString p) (transcriptionText p) n
    (mic p) (desktop p) (pending p) (editors p) (console p).

Definition setPending (l : list Task) (p : Process) : Process :=
  mkProcess (firstString p) (transcriptionText p) (transcriptionIteration p)
    (mic p) (desktop p) l (editors p) (console p).

Definition setEditors (l : list (nat * string)) (p : Process) : Process :=
  mkProcess (firstString p) (transcriptionText p) (transcriptionIteration p)
    (mic p) (desktop p) (pending p) l (console p).

Definition setConsole (l : list LogEntry) (p : Process) : Process :=
  mkProcess (firstString p) (transcriptionText p) (transcriptionIteration p)
    (mic p) (desktop p) (pending p) (editors p) l.

Definition setChunks (l : list Blob) (i : Instance) : Instance :=
  mkInstance l (mediaRecorder i) (mediaStream i) (editorRef i).

Definition setMediaRecorder (r : option MediaRecorder) (i : Instance) : Instance :=
  mkInstance (chunks i) r (mediaStream i) (editorRef i).

Definition setMediaStream (s : option Stream) (i : Instance) : Instance :=
  mkInstance (chunks i) (mediaRecorder i) s (editorRef i).

(** The state at module load, both buttons rendered and idle; [em] and [ed]
    are the editors the two buttons' props point to. *)
Definition initial (em ed : nat) : Process :=
  mkProcess "" "" 0
    (mkInstance [] None None em) (mkInstance [] None None ed)
    [] [] [].

(** ** Computations over the process that may throw

    A throw keeps the state reached so far, as in JavaScript. *)

Inductive Completion (A : Type) :=
| Normal (a : A)
| Throw (e : Error).
Arguments Normal {A} a.
Arguments Throw {A} e.

Definition M (A : Type) : Type := Process -> Process * Completion A.

Definition ret {A} (a : A) : M A := fun p => (p, Normal a).

Definition throw {A} (e : Error) : M A := fun p => (p, Throw e).

Definition bind {A B} (m : M A) (k : A -> M B) : M B :=
  fun p =>
    match m p with
    | (p', Normal a) => k a p'
    | (p', Throw e) => (p', Throw e)
    end.

(** [try { m } catch (err) { h err }] *)
Definition tryCatch {A} (m : M A) (h : Error -> M A) : M A :=
  fun p =>
    match m p with
    | (p', Throw e) => h e p'
    | r => r
    end.

(** [await promise]: the value the promise is fulfilled with, or its
    rejection thrown. *)
Definition await {A} (promise : Completion A) : M A := fun p => (p, promise).

Definition gets {A} (f : Process -> A) : M A := fun p => (p, Normal (f p)).

Definition modify (f : Process -> Process) : M unit := fun p => (f p, Normal tt).

Declare Scope m_scope.
Delimit Scope m_scope with m.
Notation "x <- m ;; k" := (bind m (fun x => k))
  (at level 61, m at next level, right associativity) : m_scope.
Notation "m ;; k" := (bind m (fun _ => k))
  (at level 61, right associativity) : m_scope.
Open Scope m_scope.

Definition exec {A} (m : M A) (p : Process) : Process := fst (m p).

Definition updInstance (b : Button) (f : Instance -> Instance) (p : Process) : Process :=
  setInstance b (f (instance b p)) p.

(** Apply [f] to the tracks of the button's stream object. *)
Definition updStream (b : Button) (f : Stream -> Stream) : Process -> Process :=
  updInstance b (fun i => setMediaStream (option_map f (mediaStream i)) i).

Definition consoleLog (l : LogEntry) : M unit :=
  modify (fun p => setConsole (console p ++ [l]) p).

(** A service call was made and its promise is now in flight. *)
Definition dispatch (t : Task) : M unit :=
  modify (fun p => setPending (pending p ++ [t]) p).

(** ** Recorder methods *)

(** [recorder.start(timeslice)] throws unless the recorder is inactive,
    and throws when the stream it was built on has no live track. *)
Definition start (ts : Z) (stream : Stream) (r : MediaRecorder) :
    Completion MediaRecorder :=
  if negb (isInactive r) then Throw InvalidStateError
  else if negb (active stream) then Throw NotSupportedError
  else Normal (mkRecorder recording (Some ts)).

(** [recorder.stop()] throws on an inactive recorder. *)
Definition stop (r : MediaRecorder) : Completion MediaRecorder :=
  if isInactive r then Throw InvalidStateError
  else Normal (mkRecorder inactive (timeslice r)).

(** The stream a button's recorder was built on: the one in the button's
    other cell (lines 50 and 68-69 set the two together). *)
Definition recorderStream (i : Instance) : Stream :=
  match mediaStream i with
  | Some s => s
  | None => []
  end.

(** Call a method on the button's recorder object; the object is mutated in
    place.  On [null] the call is a [TypeError]. *)
Definition onRecorder (b : Button)
    (method : MediaRecorder -> Completion MediaRecorder) : M unit :=
  fun p =>
    match mediaRecorder (instance b p) with
    | Some r =>
        match method r with
        | Normal r' => (updInstance b (setMediaRecorder (Some r')) p, Normal tt)
        | Throw e => (p, Throw e)
        end
    | None => (p, Throw TypeError)
    end.

(** ** The component: lines 47-123 *)

(** [recorder.ondataavailable], lines 71-103.  The handler is declared
    [async] but awaits nothing: it runs to its end before any [then]
    callback. *)
Definition ondataavailable (b : Button) (data : Blob) : M unit :=
  modify (updInstance b (fun i => setChunks (pushChunk (chunks i) data) i)) ;;
  blob <- gets (fun p => newBlob (chunks (instance b p)) "audio/wav;codecs=opus") ;;
  n <- gets transcriptionIteration ;;
  (if n =? 0 then
     dispatch (TranscribeThenSetFirst blob) ;;
     modify (fun p => setTranscriptionText (firstString p) p) ;;
     modify (fun p => setTranscriptionIteration (transcriptionIteration p + 1) p)
   else ret tt) ;;
  n <- gets transcriptionIteration ;;
  (if 0 <? n then dispatch (TranscribeThenAppend blob) else ret tt) ;;
  text <- gets transcriptionText ;;
  editor <- gets (fun p => editorRef (instance b p)) ;;
  dispatch (SummarizeThenSetContent text editor).

(** [captureAudio], lines 47-110.

    The click and the answer of [getMediaStream] are taken as one event:
    a click is answered before the button is clicked again.  Lines 50 and
    69 set the state cells and so re-render the component, and every render
    runs line 45, [let chunks = []]: the handler registered by the next
    click closes over an array no handler has pushed to.  The cells are
    overwritten as [setMediaStream] and [setMediaRecorder] overwrite them;
    a recorder that is still recording then is out of the component's
    reach, and out of the model. *)
Definition captureAudio (b : Button) (getMediaStream : Completion Stream) : M unit :=
  tryCatch
    (stream <- await getMediaStream ;;
     modify (updInstance b (setMediaStream (Some stream))) ;;
     (if String.eqb (captureFrom b) "Desktop" then
        modify (updStream b stopVideoTracks) ;;
        modify (updStream b attachOnended)
      else ret tt) ;;
     modify (updInstance b (setMediaRecorder (Some newMediaRecorder))) ;;
     modify (updInstance b (setChunks [])) ;;
     recorded <- gets (fun p => recorderStream (instance b p)) ;;
     onRecorder b (start (timeSlice b) recorded))
    (fun err => consoleLog (LogError err)).

(** [stopAudio], lines 112-123. *)
Definition stopAudio (b : Button) : M unit :=
  r <- gets (fun p => mediaRecorder (instance b p)) ;;
  (match r with
   | Some r =>
       if negb (isInactive r) then
         onRecorder b stop ;;
         consoleLog (LogText "should stop")
       else ret tt
   | None => ret tt
   end) ;;
  s <- gets (fun p => mediaStream (instance b p)) ;;
  (match s with
   | Some _ => modify (updStream b stopAllTracks)
   | None => ret tt
   end) ;;
  consoleLog (LogText "SHOULD STOP").

(** [track.onended], lines 60-64. *)
Definition trackOnended (b : Button) : M unit :=
  r <- gets (fun p => mediaRecorder (instance b p)) ;;
  match r with
  | Some r => if negb (isInactive r) then onRecorder b stop else ret tt
  | None => ret tt
  end.

Fixpoint setNth {A} (k : nat) (a : A) (l : list A) : list A :=
  match l, k with
  | [], _ => []
  | _ :: r, O => a :: r
  | x :: r, S k => x :: setNth k a r
  end.

(** The recorder of the browser inactivates itself once every track of its
    stream has ended. *)
Definition inactivateIfEnded (b : Button) : M unit :=
  i <- gets (instance b) ;;
  match mediaRecorder i with
  | Some r =>
      if negb (isInactive r) && negb (active (recorderStream i))
      then modify (updInstance b
                     (setMediaRecorder (Some (mkRecorder inactive (timeslice r)))))
      else ret tt
  | None => ret tt
  end.

(** The browser ends track [k] of the button's stream (the user closes the
    share from the browser's own controls): a live track becomes ended, its
    [onended] handler, if any, runs, and the recorder sees the track
    end. *)
Definition trackEnded (b : Button) (k : nat) : M unit :=
  s <- gets (fun p => mediaStream (instance b p)) ;;
  match s with
  | Some tracks =>
      match nth_error tracks k with
      | Some t =>
          match readyState t with
          | live =>
              modify (updStream b (setNth k (mkTrack (kind t) ended (onended t)))) ;;
              (if onended t then trackOnended b else ret tt) ;;
              inactivateIfEnded b
          | ended => ret tt
          end
      | None => ret tt
      end
  | None => ret tt
  end.

(** ** Promise settlement *)

Inductive Response :=
| Fulfilled (v : string)
| Rejected.

Fixpoint removeNth {A} (n : nat) (l : list A) : list A :=
  match l, n with
  | [], _ => []
  | _ :: r, O => r
  | x :: r, S n => x :: removeNth n r
  end.

(** The [then] callbacks of lines 86, 94 and 101. *)
Definition callback (t : Task) (v : string) : M unit :=
  match t with
  | TranscribeThenSetFirst _ =>
      modify (setFirstString v)
  | TranscribeThenAppend _ =>
      modify (fun p =>
        setTranscriptionText
          (transcriptionText p ++
             JS.trim (JS.slice v (JS.length (firstString p)) (JS.length v)))%string
          p)
  | SummarizeThenSetContent _ editor =>
      modify (fun p => setEditors ((editor, v) :: editors p) p)
  end.

(** The [n]-th promise in flight settles.  No [catch] is attached anywhere:
    on rejection the callback does not run. *)
Definition settle (n : nat) (r : Response) : M unit :=
  ts <- gets pending ;;
  match nth_error ts n with
  | Some t =>
      modify (setPending (removeNth n ts)) ;;
      match r with
      | Fulfilled v => callback t v
      | Rejected => ret tt
      end
  | None => ret tt
  end.

(** ** Events of the single event loop *)

Inductive Event :=
| ClickStart (b : Button) (getMediaStream : Completion Stream)
| ClickStop (b : Button)
| TrackEnded (b : Button) (k : nat)
| DataAvailable (b : Button) (data : Blob)
| Settle (n : nat) (r : Response).

Definition handle (e : Event) : M unit :=
  match e with
  | ClickStart b g => captureAudio b g
  | ClickStop b => stopAudio b
  | TrackEnded b k => trackEnded b k
  | DataAvailable b data => ondataavailable b data
  | Settle n r => settle n r
  end.

Definition step (p : Process) (e : Event) : Process := exec (handle e) p.

Definition run (p : Process) (es : list Event) : Process := fold_left step es p.

(** The latest summary an editor was given. *)
Fixpoint latestSummary (editor : nat) (l : list (nat * string)) : option string :=
  match l with
  | [] => None
  | (e, s) :: r => if Nat.eqb e editor then Some s else latestSummary editor r
  end.

(** ** Views used by the statements *)

(** The transcript variables a button's handlers read and write: the three
    module-level variables, whichever the button. *)
Definition transcriptState (b : Button) (p : Process) : string * string * Z :=
  (firstString p, transcriptionText p, transcriptionIteration p).

(** The button an event belongs to; a settling promise belongs to none. *)
Definition eventButton (e : Event) : option Button :=
  match e with
  | ClickStart b _ | ClickStop b | TrackEnded b _ | DataAvailable b _ => Some b
  | Settle _ _ => None
  end.

(** The event takes the first-merge branch of lines 83-90. *)
Definition takesFirstBranch (p : Process) (e : Event) : bool :=
  match e with
  | DataAvailable _ _ => transcriptionIteration p =? 0
  | _ => false
  end.

(** How many events of a run take the first-merge branch. *)
Fixpoint firstBranchCount (p : Process) (es : list Event) : nat :=
  match es with
  | [] => O
  | e :: r =>
      ((if takesFirstBranch p e then 1 else 0) + firstBranchCount (step p e) r)%nat
  end.

(** Everything but the console output. *)
Definition quiet (p : Process) : Process := setConsole [] p.

(** The session states of the design, read off the handles: no handle yet;
    a recorder that records; a recorder that is inactive over a stream whose
    tracks have all ended. *)
Definition isIdle (i : Instance) : bool :=
  match mediaRecorder i, mediaStream i with
  | None, None => true
  | _, _ => false
  end.

Definition isEnded (t : Track) : bool :=
  match readyState t with ended => true | live => false end.

Definition isRecording (i : Instance) : bool :=
  match mediaRecorder i with
  | Some r => match state r with recording => true | _ => false end
  | None => false
  end.

Definition isStopped (i : Instance) : bool :=
  match mediaRecorder i, mediaStream i with
  | Some r, Some s => isInactive r && forallb isEnded s
  | _, _ => false
  end.

(** [stopAudio] on one instance, spelled out: the recorder is stopped unless
    it is missing or inactive, the tracks of the stream are stopped. *)
Definition stopped (i : Instance) : Instance :=
  mkInstance (chunks i)
    (match mediaRecorder i with
     | Some r => Some (mkRecorder inactive (timeslice r))
     | None => None
     end)
    (option_map stopAllTracks (mediaStream i))
    (editorRef i).

(** [through R m]: running [m] takes every process to one related to it by
    [R]. *)
Definition through {A} (R : Process -> Process -> Prop) (m : M A) : Prop :=
  forall p, R p (fst (m p)).

(** The module-level variables are the same in both processes. *)
Definition sameTranscript (p q : Process) : Prop :=
  firstString q = firstString p /\
  transcriptionText q = transcriptionText p /\
  transcriptionIteration q = transcriptionIteration p.

(** Button [b] has the same chunks and handles in both processes. *)
Definition sameInstance (b : Button) (p q : Process) : Prop :=
  instance b q = instance b p.

Definition sameChunks (b : Button) (p q : Process) : Prop :=
  chunks (instance b q) = chunks (instance b p).

Definition sameIteration (p q : Process) : Prop :=
  transcriptionIteration q = transcriptionIteration p.

(** At most two chunks, and a counter that is not negative, carry over. *)
Definition keepsBound (b : Button) (p q : Process) : Prop :=
  (List.length (chunks (instance b p)) <= 2)%nat ->
  (List.length (chunks (instance b q)) <= 2)%nat.

Definition keepsCounting (p q : Process) : Prop :=
  0 <= transcriptionIteration p -> 0 <= transcriptionIteration q.

(** ** Scenario data *)

Definition chunk1 : Blob := mkBlob [Byte.x1a; Byte.x45] "audio/webm;codecs=opus".
Definition chunk2 : Blob := mkBlob [Byte.xa3] "audio/webm;codecs=opus".

Definition micStream : Stream := [mkTrack audio live false].

(** What [getDisplayMedia] gives when a tab is shared with its audio. *)
Definition displayStream : Stream :=
  [mkTrack video live false; mkTrack audio live false].

(** Both buttons rendered, the microphone one started. *)
Definition micRecording : Process :=
  step (initial 0 1) (ClickStart MicAudioButton (Normal micStream)).

(** The anchor is "Hello", the text "Hello", and the service answers a later
    merge with "Hi". *)
Definition shortAnswerState : Process :=
  mkProcess "Hello" "Hello" 1
    (mkInstance [chunk1; chunk2] (Some (mkRecorder recording (Some 5000)))
       (Some micStream) 0)
    (mkInstance [] None None 1)
    [TranscribeThenAppend (newBlob [chunk1; chunk2] "audio/wav;codecs=opus")]
    [] [].

(** The scenario of the design: the service answers "Hello" for the first
    combined blob and "Hello world" for the second.  The first arrival puts
    two transcriptions in flight (lines 85 and 93); they settle in the order
    they were submitted. *)
Definition helloFirstMerge : Process :=
  run micRecording
    [DataAvailable MicAudioButton chunk1;
     Settle 0 (Fulfilled "Hello");
     Settle 0 (Fulfilled "Hello")].

Definition helloSecondMerge : Process :=
  run helloFirstMerge
    [DataAvailable MicAudioButton chunk2;
     Settle 1 (Fulfilled "Hello world")].

(** The same first arrival, the append of line 93 settling before the
    assignment of line 86. *)
Definition helloFirstMergeSwapped : Process :=
  run micRecording
    [DataAvailable MicAudioButton chunk1;
     Settle 1 (Fulfilled "Hello");
     Settle 0 (Fulfilled "Hello")].

(** The desktop button started on a shared tab with audio. *)
Definition desktopRecording : Process :=
  step (initial 0 1) (ClickStart DesktopAudioButton (Normal displayStream)).

(** Both buttons started; then the desktop session's first merge, answered
    "Good morning", on its own and after a merge of the microphone
    session. *)
Definition bothRecording : Process :=
  run (initial 0 1)
    [ClickStart MicAudioButton (Normal micStream);
     ClickStart DesktopAudioButton (Normal displayStream)].

Definition desktopAlone : Process :=
  run bothRecording
    [DataAvailable DesktopAudioButton chunk2;
     Settle 0 (Fulfilled "Good morning");
     Settle 0 (Fulfilled "Good morning")].

Definition desktopAfterMic : Process :=
  run bothRecording
    [DataAvailable MicAudioButton chunk1;
     Settle 0 (Fulfilled "Hello");
     Settle 0 (Fulfilled "Hello");
     DataAvailable DesktopAudioButton chunk2;
     Settle 1 (Fulfilled "Good morning")].

(** ** Further views *)

Definition isDataAvailable (e : Event) : bool :=
  match e with
  | DataAvailable _ _ => true
  | _ => false
  end.

Definition isSetFirst (t : Task) : bool :=
  match t with
  | TranscribeThenSetFirst _ => true
  | _ => false
  end.

(** How many pending promises would assign the anchor. *)
Definition countSetFirst (l : list Task) : nat := List.length (filter isSetFirst l).

(** The event runs the callback of line 86, [firstString = text]. *)
Definition assignsAnchor (p : Process) (e : Event) : bool :=
  match e with
  | Settle n (Fulfilled _) =>
      match nth_error (pending p) n with
      | Some t => isSetFirst t
      | None => false
      end
  | _ => false
  end.

(** How many events of a run assign the anchor. *)
Fixpoint anchorAssignments (p : Process) (es : list Event) : nat :=
  match es with
  | [] => O
  | e :: r =>
      ((if assignsAnchor p e then 1 else 0) + anchorAssignments (step p e) r)%nat
  end.

(** What is left to assign: the assignments in flight, and the one the
    first arrival will put in flight. *)
Definition anchorBudget (p : Process) : nat :=
  (countSetFirst (pending p) + if (transcriptionIteration p =? 0)%Z then 1 else 0)%nat.

(** The event is the fulfilment of a summary. *)
Definition deliversSummary (p : Process) (e : Event) : bool :=
  match e with
  | Settle n (Fulfilled _) =>
      match nth_error (pending p) n with
      | Some (SummarizeThenSetContent _ _) => true
      | _ => false
      end
  | _ => false
  end.

(** The button holds a recorder and a stream. *)
Definition hasHandles (i : Instance) : bool :=
  match mediaRecorder i, mediaStream i with
  | Some _, Some _ => true
  | _, _ => false
  end.

Definition keepsHandles (b : Button) (p q : Process) : Prop :=
  hasHandles (instance b p) = true -> hasHandles (instance b q) = true.

(** The stream a granted start leaves on the button: lines 53-66. *)
Definition preparedStream (b : Button) (s : Stream) : Stream :=
  if String.eqb (captureFrom b) "Desktop"
  then attachOnended (stopVideoTracks s)
  else s.

(** ** Desktop streams *)




(** The event is a granted start of button [b]. *)
Definition isGrantedStart (b : Button) (e : Event) : bool :=
  match e with
  | ClickStart b' (Normal _) =>
      match b, b' with
      | MicAudioButton, MicAudioButton => true
      | DesktopAudioButton, DesktopAudioButton => true
      | _, _ => false
      end
  | _ => false
  end.


(** The same track, possibly ended since. *)
Definition endedOrSame (t t' : Track) : Prop :=
  kind t' = kind t /\ onended t' = onended t /\
  (readyState t' = ended \/ readyState t' = readyState t).

(** The same stream object, some of its tracks possibly ended since. *)
Definition wearsDown (s s' : Stream) : Prop := Forall2 endedOrSame s s'.

Definition streamWears (b : Button) (p q : Process) : Prop :=
  match mediaStream (instance b p), mediaStream (instance b q) with
  | Some s, Some s' => wearsDown s s'
  | None, None => True
  | _, _ => False
  end.

(** ** The editor's placeholder

    The [placeholder] callback of the editor component: "Untitled" on an
    empty document, a label for headings of level 1 to 3, nothing
    otherwise. *)

Record Node := mkNode { typeName : string; level : Z }.

Definition headingPlaceholders : list (Z * string) :=
  [(1, "Heading 1"); (2, "Heading 2"); (3, "Heading 3")].

(** [object[key]]: [None] is [undefined]. *)
Fixpoint lookup (key : Z) (object : list (Z * string)) : option string :=
  match object with
  | [] => None
  | (k, v) :: r => if key =? k then Some v else lookup key r
  end.

(** [x || ""] *)
Definition orEmpty (x : option string) : string :=
  match x with
  | Some s => s
  | None => ""
  end.

Definition placeholder (isEmpty : bool) (node : Node) : string :=
  if isEmpty then "Untitled"
  else if String.eqb (typeName node) "heading"
       then orEmpty (lookup (level node) headingPlaceholders)
       else "".

(** * Properties *)

(** ** Strings *)

Section Strings.

Lemma substring_none (n : nat) (s : string) : substring n 0 s = "".
Proof.
  revert s; induction n as [|n IH]; intros [|c s]; simpl; auto.
Qed.

Lemma append_empty_r (s : string) : (s ++ "")%string = s.
Proof.
  induction s as [|c s IH]; simpl; [reflexivity | now rewrite IH].
Qed.

Lemma length_nonneg (s : string) : 0 <= JS.length s.
Proof. unfold JS.length; lia. Qed.

(** Slicing from at or beyond the end gives the empty string. *)
Lemma slice_beyond (v : string) (n : Z) :
  JS.length v <= n -> JS.slice v n (JS.length v) = "".
Proof.
  intros Hn. pose proof (length_nonneg v) as Hv. unfold JS.slice.
  destruct (Z.ltb_spec n 0); [lia|].
  destruct (Z.ltb_spec (JS.length v) 0); [lia|].
  replace (Z.min (JS.length v) (JS.length v) - Z.min n (JS.length v)) with 0 by lia.
  apply substring_none.
Qed.

Lemma trimStart_head (s : string) (c : ascii) (r : string) :
  JS.trimStart s = String c r -> JS.isWhiteSpace c = false.
Proof.
  induction s as [|a s IH]; simpl; [discriminate|].
  destruct (JS.isWhiteSpace a) eqn:Ha; [exact IH|].
  intros E; inversion E; subst; exact Ha.
Qed.

Lemma trimEnd_head (a c : ascii) (s r : string) :
  JS.trimEnd (String a s) = String c r -> c = a.
Proof.
  simpl. destruct (JS.trimEnd s).
  - destruct (JS.isWhiteSpace a); [discriminate|]. now intros E; inversion E.
  - now intros E; inversion E.
Qed.

(** A trimmed string does not start with white space. *)
Lemma trim_head (s : string) (c : ascii) (r : string) :
  JS.trim s = String c r -> JS.isWhiteSpace c = false.
Proof.
  unfold JS.trim. destruct (JS.trimStart s) as [|a t] eqn:Hs; [discriminate|].
  intros E. apply trimEnd_head in E. subst c.
  exact (trimStart_head _ _ _ Hs).
Qed.

Lemma append_inv_l (s t u : string) : (s ++ t)%string = (s ++ u)%string -> t = u.
Proof.
  induction s as [|c s IH]; simpl; [auto|].
  intros E; inversion E; auto.
Qed.

End Strings.

(** ** What one settlement does *)

Section Settlement.

Variables (p : Process) (n : nat).

Lemma settle_none (r : Response) :
  nth_error (pending p) n = None -> settle n r p = (p, Normal tt).
Proof. intros H. unfold settle, bind, gets. now rewrite H. Qed.

Lemma settle_rejected (t : Task) :
  nth_error (pending p) n = Some t ->
  settle n Rejected p = (setPending (removeNth n (pending p)) p, Normal tt).
Proof. intros H. unfold settle, bind, gets. now rewrite H. Qed.

Lemma settle_fulfilled (t : Task) (v : string) :
  nth_error (pending p) n = Some t ->
  settle n (Fulfilled v) p = callback t v (setPending (removeNth n (pending p)) p).
Proof. intros H. unfold settle, bind, gets. now rewrite H. Qed.

End Settlement.

(** A settlement never throws. *)
Lemma settle_normal (p : Process) (n : nat) (r : Response) :
  snd (settle n r p) = Normal tt.
Proof.
  destruct (nth_error (pending p) n) as [t|] eqn:H.
  - destruct r as [v|].
    + rewrite (settle_fulfilled _ _ _ _ H). now destruct t.
    + now rewrite (settle_rejected _ _ _ H).
  - now rewrite settle_none.
Qed.

(** The text after a settlement: only the append callback of line 94
    changes it, by a trimmed suffix. *)
Lemma settle_text (p : Process) (n : nat) (r : Response) :
  transcriptionText (step p (Settle n r)) = transcriptionText p \/
  exists v,
    transcriptionText (step p (Settle n r)) =
      (transcriptionText p ++
         JS.trim (JS.slice v (JS.length (firstString p)) (JS.length v)))%string.
Proof.
  unfold step, exec, handle.
  destruct (nth_error (pending p) n) as [t|] eqn:H.
  - destruct r as [v|].
    + rewrite (settle_fulfilled _ _ _ _ H).
      destruct t; simpl; auto. right. now exists v.
    + rewrite (settle_rejected _ _ _ H). now left.
  - rewrite settle_none by assumption. now left.
Qed.

(** C9. A later merge whose result is no longer than the anchor: the slice
    of line 94 is empty, so the callback appends nothing, the text and the
    anchor stay as they were, and the settlement completes normally. *)
Theorem short_result_appends_nothing
    (p : Process) (n : nat) (blob : Blob) (v : string) :
  nth_error (pending p) n = Some (TranscribeThenAppend blob) ->
  JS.length v <= JS.length (firstString p) ->
  JS.trim (JS.slice v (JS.length (firstString p)) (JS.length v)) = "" /\
  snd (settle n (Fulfilled v) p) = Normal tt /\
  transcriptionText (step p (Settle n (Fulfilled v))) = transcriptionText p /\
  firstString (step p (Settle n (Fulfilled v))) = firstString p /\
  transcriptionIteration (step p (Settle n (Fulfilled v))) = transcriptionIteration p.
Proof.
  intros Hn Hv. unfold step, exec, handle.
  rewrite (settle_fulfilled _ _ _ _ Hn). simpl.
  rewrite (slice_beyond _ _ Hv). simpl.
  now rewrite append_empty_r.
Qed.

Lemma short_result_appends_nothing_witness :
  transcriptionText (step shortAnswerState (Settle 0 (Fulfilled "Hi"))) = "Hello".
Proof.
  apply (short_result_appends_nothing shortAnswerState 0
           (newBlob [chunk1; chunk2] "audio/wav;codecs=opus") "Hi").
  - reflexivity.
  - vm_compute. discriminate.
Defined.

(** No settlement turns the text "Hello" into "Hello world": what line 94
    appends is trimmed, so it cannot start with the separating space. *)
Lemma hello_never_hello_world (p : Process) (n : nat) (r : Response) :
  transcriptionText p = "Hello" ->
  transcriptionText (step p (Settle n r)) <> "Hello world".
Proof.
  intros Hp. destruct (settle_text p n r) as [E | [v E]]; rewrite E, Hp.
  - discriminate.
  - intros C. change "Hello world" with ("Hello" ++ " world")%string in C.
    apply append_inv_l in C. apply trim_head in C. discriminate.
Qed.

(** C3, as the code has it. With the anchor "Hello", a later merge answered
    "Hello world" appends exactly "world": the answer beyond the anchor's
    length, trimmed, the anchor not repeated and no separator kept. *)
Theorem hello_world_appends_world (p : Process) (n : nat) (blob : Blob) :
  nth_error (pending p) n = Some (TranscribeThenAppend blob) ->
  firstString p = "Hello" ->
  transcriptionText (step p (Settle n (Fulfilled "Hello world"))) =
    (transcriptionText p ++ "world")%string.
Proof.
  intros Hn Hf. unfold step, exec, handle.
  rewrite (settle_fulfilled _ _ _ _ Hn). simpl. now rewrite Hf.
Qed.

Lemma hello_world_appends_world_witness :
  transcriptionText (step shortAnswerState (Settle 0 (Fulfilled "Hello world"))) =
    "Helloworld".
Proof.
  apply (hello_world_appends_world shortAnswerState 0
           (newBlob [chunk1; chunk2] "audio/wav;codecs=opus")); reflexivity.
Defined.

(** C3, as stated, fails. In the scenario the text is empty after the first
    merge and "world" after the second; and from the text "Hello" no merge
    at all gives "Hello world". *)
Lemma hello_world_counterexample :
  transcriptionText helloFirstMerge = "" /\
  transcriptionText helloSecondMerge = "world" /\
  (forall (p : Process) (n : nat) (r : Response),
      transcriptionText p = "Hello" ->
      transcriptionText (step p (Settle n r)) <> "Hello world").
Proof.
  split; [reflexivity|]. split; [reflexivity|].
  exact hello_never_hello_world.
Qed.

(** C2, on the code. The first arrival assigns [transcriptionText] from
    [firstString] before the transcription has answered (line 88 runs
    before the callback of line 86): once the first merge has completed
    the anchor is the service's text while the accumulated text is empty,
    and after the second merge the text still does not begin with the
    anchor. *)
Theorem first_merge_leaves_text_empty :
  firstString helloFirstMerge = "Hello" /\
  transcriptionText helloFirstMerge = "" /\
  pending helloFirstMerge = [SummarizeThenSetContent "" 0] /\
  firstString helloSecondMerge = "Hello" /\
  transcriptionText helloSecondMerge = "world" /\
  prefix (firstString helloSecondMerge) (transcriptionText helloSecondMerge) = false.
Proof. repeat split; reflexivity. Qed.

Lemma removeNth_none {A} (l : list A) (n : nat) :
  nth_error l n = None -> removeNth n l = l.
Proof.
  revert n. induction l as [|a l IH]; intros [|n] H; simpl in *;
    try discriminate; auto.
  now rewrite IH.
Qed.

(** Completing a promise puts no new call in flight. *)
Lemma settle_pending (p : Process) (n : nat) (r : Response) :
  pending (step p (Settle n r)) = removeNth n (pending p).
Proof.
  unfold step, exec, handle.
  destruct (nth_error (pending p) n) as [t|] eqn:H.
  - destruct r as [v|].
    + rewrite (settle_fulfilled _ _ _ _ H). now destruct t.
    + now rewrite (settle_rejected _ _ _ H).
  - rewrite settle_none by assumption. simpl.
    symmetry. now apply removeNth_none.
Qed.

(** C5, on the code. [summarize] is called inside the data handler, with the
    text as it is before the transcription of that chunk answers (line 99
    runs before the callbacks of lines 86 and 94), and the completion of a
    merge calls nothing: here the first merge produces "Hello", and the only
    summary requested is that of the empty text, which is then what the
    editor shows. *)
Theorem summary_requested_before_merge :
  pending (step micRecording (DataAvailable MicAudioButton chunk1)) =
    [TranscribeThenSetFirst (newBlob [chunk1] "audio/wav;codecs=opus");
     TranscribeThenAppend (newBlob [chunk1] "audio/wav;codecs=opus");
     SummarizeThenSetContent "" 0] /\
  transcriptionText helloFirstMergeSwapped = "Hello" /\
  pending helloFirstMergeSwapped = [SummarizeThenSetContent "" 0] /\
  latestSummary 0
    (editors (step helloFirstMergeSwapped (Settle 0 (Fulfilled "(nothing said)")))) =
    Some "(nothing said)" /\
  (forall (p : Process) (n : nat) (r : Response),
      pending (step p (Settle n r)) = removeNth n (pending p)).
Proof.
  repeat split; try reflexivity. exact settle_pending.
Qed.

(** ** Starting and stopping *)

(** C6, as the code has it. When [getMediaStream] rejects, [captureAudio]
    catches the error and logs it (lines 107-109): nothing of the process
    changes but the console, the button keeps no stream and gets no
    recorder, and [captureAudio] itself completes normally. *)
Theorem rejected_start_is_logged (b : Button) (err : Error) (p : Process) :
  captureAudio b (Throw err) p =
    (setConsole (console p ++ [LogError err]) p, Normal tt) /\
  instance b (step p (ClickStart b (Throw err))) = instance b p /\
  quiet (step p (ClickStart b (Throw err))) = quiet p.
Proof.
  destruct p, b; repeat split.
Qed.

(** C6, as stated, fails: permission is denied and the caller of
    [captureAudio] is handed a normal completion, the error having gone to
    the console. *)
Lemma denied_start_counterexample :
  snd (captureAudio MicAudioButton (Throw NotAllowedError) (initial 0 1)) = Normal tt /\
  snd (captureAudio DesktopAudioButton (Throw NotFoundError) (initial 0 1)) = Normal tt /\
  console (step (initial 0 1) (ClickStart MicAudioButton (Throw NotAllowedError))) =
    [LogError NotAllowedError] /\
  isIdle (mic (step (initial 0 1) (ClickStart MicAudioButton (Throw NotAllowedError)))) = true.
Proof. repeat split; reflexivity. Qed.

Section Stopping.

Lemma stopAllTracks_twice (s : Stream) :
  stopAllTracks (stopAllTracks s) = stopAllTracks s.
Proof.
  unfold stopAllTracks. rewrite map_map. apply map_ext. now intros [k r h].
Qed.

Lemma stopAllTracks_ended (s : Stream) : forallb isEnded (stopAllTracks s) = true.
Proof. induction s as [|t s IH]; simpl; auto. Qed.


Lemma stopAudio_instance (b : Button) (p : Process) :
  quiet (step p (ClickStop b)) = quiet (setInstance b (stopped (instance b p)) p) /\
  snd (stopAudio b p) = Normal tt.
Proof.
  destruct p as [f t n m d pe ed co].
  destruct b; simpl.
  - destruct m as [ch [[[] ts]|] [s|] e]; split; reflexivity.
  - destruct d as [ch [[[] ts]|] [s|] e]; split; reflexivity.
Qed.

Lemma stopped_twice (i : Instance) : stopped (stopped i) = stopped i.
Proof.
  destruct i as [ch [r|] [s|] e]; unfold stopped; simpl;
    now rewrite ?stopAllTracks_twice.
Qed.

End Stopping.

(** C7. [stopAudio] never throws, whatever the state; a second call leaves
    the state the first one reached; and on a button with neither recorder
    nor stream it changes nothing.  (Each call writes its console line; the
    state is compared without the console.) *)
Theorem stop_idempotent_total (b : Button) (p : Process) :
  snd (stopAudio b p) = Normal tt /\
  quiet (step (step p (ClickStop b)) (ClickStop b)) = quiet (step p (ClickStop b)) /\
  (isIdle (instance b p) = true -> quiet (step p (ClickStop b)) = quiet p).
Proof.
  split; [apply stopAudio_instance|].
  destruct p as [f t n m d pe ed co].
  destruct b; simpl.
  - destruct m as [ch [[[] ts]|] [s|] e]; simpl; split;
      try discriminate; try reflexivity;
      unfold quiet, step, exec; simpl; now rewrite ?stopAllTracks_twice.
  - destruct d as [ch [[[] ts]|] [s|] e]; simpl; split;
      try discriminate; try reflexivity;
      unfold quiet, step, exec; simpl; now rewrite ?stopAllTracks_twice.
Qed.

Lemma stop_idempotent_total_witness :
  quiet (step (initial 0 1) (ClickStop DesktopAudioButton)) = quiet (initial 0 1).
Proof.
  apply (stop_idempotent_total DesktopAudioButton (initial 0 1)). reflexivity.
Defined.

(** ** The end of a desktop track *)

Section TrackEnd.


Variables (p : Process) (k : nat) (s : Stream) (t : Track).
Hypothesis recording_now : isRecording (desktop p) = true.
Hypothesis the_stream : mediaStream (desktop p) = Some s.
Hypothesis the_track : nth_error s k = Some t.
Hypothesis track_live : readyState t = live.
Hypothesis handler_attached : onended t = true.


End TrackEnd.


(** ** What a handler leaves alone

    For a reflexive and transitive [R], [through R] follows the structure
    of the handler down to its assignments. *)

Section Through.

Variable R : Process -> Process -> Prop.
Hypothesis R_refl : forall p, R p p.
Hypothesis R_trans : forall p q r, R p q -> R q r -> R p r.

Lemma through_ret {A} (a : A) : through R (ret a).
Proof. intros p; apply R_refl. Qed.

Lemma through_throw {A} (e : Error) : through R (@throw A e).
Proof. intros p; apply R_refl. Qed.

Lemma through_await {A} (c : Completion A) : through R (await c).
Proof. intros p; apply R_refl. Qed.

Lemma through_gets {A} (f : Process -> A) : through R (gets f).
Proof. intros p; apply R_refl. Qed.

Lemma through_modify (f : Process -> Process) :
  (forall p, R p (f p)) -> through R (modify f).
Proof. intros H p; apply H. Qed.

Lemma through_bind {A B} (m : M A) (k : A -> M B) :
  through R m -> (forall a, through R (k a)) -> through R (bind m k).
Proof.
  intros Hm Hk p. unfold bind. specialize (Hm p).
  destruct (m p) as [p' [a|e]]; simpl in *; [|exact Hm].
  exact (R_trans _ _ _ Hm (Hk a p')).
Qed.

Lemma through_tryCatch {A} (m : M A) (h : Error -> M A) :
  through R m -> (forall e, through R (h e)) -> through R (tryCatch m h).
Proof.
  intros Hm Hh p. unfold tryCatch. specialize (Hm p).
  destruct (m p) as [p' [a|e]]; simpl in *; [exact Hm|].
  exact (R_trans _ _ _ Hm (Hh e p')).
Qed.

Lemma through_onRecorder (b : Button) (method : MediaRecorder -> Completion MediaRecorder) :
  (forall r p, R p (updInstance b (setMediaRecorder (Some r)) p)) ->
  through R (onRecorder b method).
Proof.
  intros H p. unfold onRecorder.
  destruct (mediaRecorder (instance b p)) as [r|]; [|apply R_refl].
  destruct (method r); [apply H | apply R_refl].
Qed.

Lemma through_run (p : Process) (es : list Event) :
  (forall e, In e es -> through R (handle e)) -> R p (run p es).
Proof.
  revert p. induction es as [|e es IH]; intros p H; simpl; [apply R_refl|].
  apply R_trans with (step p e).
  - apply H. now left.
  - apply IH. intros e' He'. apply H. now right.
Qed.

End Through.

Ltac through_handler Hr Ht :=
  repeat first
    [ apply (through_bind _ Ht); [ | intros ? ]
    | apply (through_tryCatch _ Ht); [ | intros ? ]
    | apply (through_ret _ Hr)
    | apply (through_throw _ Hr)
    | apply (through_await _ Hr)
    | apply (through_gets _ Hr)
    | apply (through_onRecorder _ Hr); intros ? ?
    | match goal with
      | |- through _ (match ?x with _ => _ end) => destruct x
      | |- through _ (modify _) => apply through_modify; intros ?
      end ].

Ltac unfold_handlers :=
  unfold handle, captureAudio, stopAudio, trackEnded, trackOnended,
    inactivateIfEnded, ondataavailable, settle, callback, consoleLog, dispatch.

Section Relations.

Variable b : Button.

Lemma sameTranscript_refl (p : Process) : sameTranscript p p.
Proof. now repeat split. Qed.

Lemma sameTranscript_trans (p q r : Process) :
  sameTranscript p q -> sameTranscript q r -> sameTranscript p r.
Proof. unfold sameTranscript. intuition congruence. Qed.

Lemma sameInstance_refl (p : Process) : sameInstance b p p.
Proof. reflexivity. Qed.

Lemma sameInstance_trans (p q r : Process) :
  sameInstance b p q -> sameInstance b q r -> sameInstance b p r.
Proof. unfold sameInstance. congruence. Qed.

Lemma sameChunks_refl (p : Process) : sameChunks b p p.
Proof. reflexivity. Qed.

Lemma sameChunks_trans (p q r : Process) :
  sameChunks b p q -> sameChunks b q r -> sameChunks b p r.
Proof. unfold sameChunks. congruence. Qed.

Lemma sameIteration_refl (p : Process) : sameIteration p p.
Proof. reflexivity. Qed.

Lemma sameIteration_trans (p q r : Process) :
  sameIteration p q -> sameIteration q r -> sameIteration p r.
Proof. unfold sameIteration. congruence. Qed.

Lemma keepsBound_refl (p : Process) : keepsBound b p p.
Proof. now intros H. Qed.

Lemma keepsBound_trans (p q r : Process) :
  keepsBound b p q -> keepsBound b q r -> keepsBound b p r.
Proof. unfold keepsBound. auto. Qed.

Lemma keepsCounting_refl (p : Process) : keepsCounting p p.
Proof. now intros H. Qed.

Lemma keepsCounting_trans (p q r : Process) :
  keepsCounting p q -> keepsCounting q r -> keepsCounting p r.
Proof. unfold keepsCounting. auto. Qed.

End Relations.

(** Starting, stopping and the end of a track leave the three variables
    alone: nothing resets them. *)
Lemma handles_keep_transcript (e : Event) :
  match e with DataAvailable _ _ | Settle _ _ => False | _ => True end ->
  through sameTranscript (handle e).
Proof.
  pose proof sameTranscript_refl as Hr. pose proof sameTranscript_trans as Ht.
  destruct e as [b g|b|b k|b data|k r]; intros He; try contradiction;
    unfold_handlers; through_handler Hr Ht; destruct b; now repeat split.
Qed.

(** No settlement touches the counter. *)
Lemma settle_keeps_iteration (n : nat) (r : Response) :
  through sameIteration (settle n r).
Proof.
  pose proof sameIteration_refl as Hr. pose proof sameIteration_trans as Ht.
  unfold_handlers; through_handler Hr Ht; reflexivity.
Qed.

(** An event of one button leaves the other button's chunks, recorder and
    stream as they are, and so does every settlement. *)
Lemma handles_keep_other_instance (b : Button) (e : Event) :
  eventButton e <> Some b -> through (sameInstance b) (handle e).
Proof.
  pose proof (sameInstance_refl b) as Hr. pose proof (sameInstance_trans b) as Ht.
  destruct e as [b' g|b'|b' k|b' data|k r]; simpl; intros He;
    unfold_handlers; through_handler Hr Ht;
    try reflexivity; destruct b, b'; try reflexivity; now elim He.
Qed.

(** Only a start and an arrival of the button's own change its chunks. *)
Lemma handles_keep_chunks (b : Button) (e : Event) :
  match e with
  | ClickStart b' _ | DataAvailable b' _ => b' <> b
  | _ => True
  end ->
  through (sameChunks b) (handle e).
Proof.
  pose proof (sameChunks_refl b) as Hr. pose proof (sameChunks_trans b) as Ht.
  destruct e as [b' g|b'|b' k|b' data|k r]; simpl; intros He;
    unfold_handlers; through_handler Hr Ht;
    try reflexivity; destruct b, b'; try reflexivity; now elim He.
Qed.

(** ** The chunk array *)

Section Chunks.

(** Lines 74-77 on an array of at most two chunks: the first chunk stays,
    the second is replaced. *)
Lemma pushChunk_cases (l : list Blob) (data : Blob) :
  (List.length l <= 2)%nat ->
  pushChunk l data =
    match l with
    | [] => [data]
    | header :: _ => [header; data]
    end.
Proof.
  destruct l as [|h [|x [|y l]]]; simpl; intros H; try reflexivity. lia.
Qed.

Lemma pushChunk_bound (l : list Blob) (data : Blob) :
  (List.length l <= 2)%nat -> (List.length (pushChunk l data) <= 2)%nat.
Proof.
  intros H. rewrite (pushChunk_cases _ _ H). destruct l; simpl; lia.
Qed.

(** Whatever the events, a button's array never exceeds two chunks once it
    does not, and the counter never turns negative. *)
Lemma handles_keep_bound (b : Button) (e : Event) :
  through (keepsBound b) (handle e).
Proof.
  pose proof (keepsBound_refl b) as Hr. pose proof (keepsBound_trans b) as Ht.
  destruct e as [b' g|b'|b' k|b' data|k r]; simpl;
    unfold_handlers; through_handler Hr Ht;
    try (now intros H); destruct b, b'; intros H; simpl in *;
    try exact H; try lia; now apply pushChunk_bound.
Qed.

Lemma handles_keep_counting (e : Event) : through keepsCounting (handle e).
Proof.
  pose proof keepsCounting_refl as Hr. pose proof keepsCounting_trans as Ht.
  destruct e as [b' g|b'|b' k|b' data|k r]; simpl;
    unfold_handlers; through_handler Hr Ht;
    try (now intros H); try (destruct b'; now intros H).
  intros H. simpl in *. lia.
Qed.

Lemma reachable_bound (em ed : nat) (es : list Event) (b : Button) :
  (List.length (chunks (instance b (run (initial em ed) es))) <= 2)%nat /\
  0 <= transcriptionIteration (run (initial em ed) es).
Proof.
  split.
  - apply (through_run _ (keepsBound_refl b) (keepsBound_trans b) (initial em ed) es).
    + intros e _. apply handles_keep_bound.
    + destruct b; simpl; lia.
  - apply (through_run _ keepsCounting_refl keepsCounting_trans (initial em ed) es).
    + intros e _. apply handles_keep_counting.
    + simpl; lia.
Qed.

End Chunks.

(** ** A chunk arrival, spelled out *)

Section Arrival.

Variables (b : Button) (data : Blob) (p : Process).

Let p' := step p (DataAvailable b data).
Let blob := newBlob (pushChunk (chunks (instance b p)) data) "audio/wav;codecs=opus".

Lemma ondataavailable_chunks :
  chunks (instance b p') = pushChunk (chunks (instance b p)) data.
Proof.
  subst p'. destruct p as [f tx n m d pe ed co].
  unfold step, exec, handle, ondataavailable, bind, gets, modify, dispatch.
  destruct b; simpl; destruct (n =? 0); simpl;
    match goal with |- context [0 <? ?x] => destruct (0 <? x) end; reflexivity.
Qed.

(** The counter is zero: lines 83-90 run, and then, the counter being one,
    lines 92-96 too. *)
Lemma ondataavailable_first :
  transcriptionIteration p = 0 ->
  transcriptState b p' = (firstString p, firstString p, 1) /\
  pending p' =
    pending p ++ [TranscribeThenSetFirst blob; TranscribeThenAppend blob;
                  SummarizeThenSetContent (firstString p) (editorRef (instance b p))].
Proof.
  subst p' blob. intros H. destruct p as [f tx n m d pe ed co]. simpl in H. subst n.
  unfold step, exec, handle, ondataavailable, bind, gets, modify, dispatch.
  destruct b; simpl; rewrite <- !app_assoc; split; reflexivity.
Qed.

(** The counter is positive: lines 92-96 only. *)
Lemma ondataavailable_later :
  0 < transcriptionIteration p ->
  transcriptState b p' = transcriptState b p /\
  pending p' =
    pending p ++ [TranscribeThenAppend blob;
                  SummarizeThenSetContent (transcriptionText p) (editorRef (instance b p))].
Proof.
  subst p' blob. intros H. destruct p as [f tx n m d pe ed co]. simpl in H.
  unfold step, exec, handle, ondataavailable, bind, gets, modify, dispatch.
  destruct b; simpl;
    (destruct (Z.eqb_spec n 0); [lia|]); simpl;
    (destruct (Z.ltb_spec 0 n); [|lia]); simpl;
    rewrite <- !app_assoc; split; reflexivity.
Qed.

End Arrival.

(** An arrival at a button whose array holds at most two chunks, the
    counter not being negative. *)
Lemma arrival_on_bounded (b : Button) (data : Blob) (p : Process) :
  (List.length (chunks (instance b p)) <= 2)%nat ->
  0 <= transcriptionIteration p ->
  chunks (instance b (step p (DataAvailable b data))) =
    match chunks (instance b p) with
    | [] => [data]
    | header :: _ => [header; data]
    end /\
  blobData (newBlob (chunks (instance b (step p (DataAvailable b data))))
              "audio/wav;codecs=opus") =
    match chunks (instance b p) with
    | [] => blobData data
    | header :: _ => blobData header ++ blobData data
    end /\
  (exists new,
      pending (step p (DataAvailable b data)) = pending p ++ new /\
      In (TranscribeThenAppend
            (newBlob (chunks (instance b (step p (DataAvailable b data))))
               "audio/wav;codecs=opus")) new /\
      forall blob',
        In (TranscribeThenSetFirst blob') new \/ In (TranscribeThenAppend blob') new ->
        blob' = newBlob (chunks (instance b (step p (DataAvailable b data))))
                  "audio/wav;codecs=opus").
Proof.
  intros Hlen Hit.
  rewrite ondataavailable_chunks.
  pose proof (pushChunk_cases _ data Hlen) as Hc.
  split; [exact Hc|]. split.
  - rewrite Hc. unfold newBlob.
    destruct (chunks (instance b p)) as [|h l]; cbn [map concat blobData].
    + apply app_nil_r.
    + f_equal. apply app_nil_r.
  - destruct (Z.eq_dec (transcriptionIteration p) 0) as [H0|H0].
    + destruct (ondataavailable_first b data p H0) as [_ Hp].
      eexists. split; [exact Hp|]. split; [right; left; reflexivity|].
      intros blob' [H|H].
      * destruct H as [H|[H|[H|[]]]]; congruence.
      * destruct H as [H|[H|[H|[]]]]; congruence.
    + assert (H1 : 0 < transcriptionIteration p) by lia.
      destruct (ondataavailable_later b data p H1) as [_ Hp].
      eexists. split; [exact Hp|]. split; [left; reflexivity|].
      intros blob' [H|H].
      * destruct H as [H|[H|[]]]; congruence.
      * destruct H as [H|[H|[]]]; congruence.
Qed.

(** C4. In every state the process can reach, a button's array holds at
    most two chunks.  An arrival keeps the first chunk and puts the new one
    in the place of the previous latest; the blob handed to [transcribe] is
    the first chunk followed by the new one, or the new one alone when the
    array was empty; and no event but the button's own start and arrivals
    changes the array. *)
Theorem chunk_buffer_header_and_latest
    (em ed : nat) (es : list Event) (b : Button) (data : Blob) :
  let p := run (initial em ed) es in
  let p' := step p (DataAvailable b data) in
  let blob := newBlob (chunks (instance b p')) "audio/wav;codecs=opus" in
  (List.length (chunks (instance b p)) <= 2)%nat /\
  chunks (instance b p') =
    match chunks (instance b p) with
    | [] => [data]
    | header :: _ => [header; data]
    end /\
  blobData blob =
    match chunks (instance b p) with
    | [] => blobData data
    | header :: _ => blobData header ++ blobData data
    end /\
  (exists new,
      pending p' = pending p ++ new /\
      In (TranscribeThenAppend blob) new /\
      forall blob',
        In (TranscribeThenSetFirst blob') new \/ In (TranscribeThenAppend blob') new ->
        blob' = blob) /\
  (forall e,
      match e with
      | ClickStart b' _ | DataAvailable b' _ => b' <> b
      | _ => True
      end ->
      chunks (instance b (step p e)) = chunks (instance b p)).
Proof.
  cbv zeta.
  destruct (reachable_bound em ed es b) as [Hlen Hit].
  destruct (arrival_on_bounded b data _ Hlen Hit) as (H1 & H2 & H3).
  split; [exact Hlen|]. split; [exact H1|]. split; [exact H2|]. split; [exact H3|].
  intros e He. exact (handles_keep_chunks b e He _).
Qed.

Lemma chunk_buffer_header_and_latest_witness :
  chunks (instance MicAudioButton
            (step (run (initial 0 1)
                     [ClickStart MicAudioButton (Normal micStream);
                      DataAvailable MicAudioButton chunk1;
                      DataAvailable MicAudioButton chunk2])
               (DataAvailable MicAudioButton chunk1))) =
    [chunk1; chunk1] /\
  chunks (instance MicAudioButton
            (step (run (initial 0 1)
                     [ClickStart MicAudioButton (Normal micStream);
                      DataAvailable MicAudioButton chunk1;
                      DataAvailable MicAudioButton chunk2])
               (ClickStop MicAudioButton))) =
    [chunk1; chunk2].
Proof.
  pose proof (chunk_buffer_header_and_latest 0 1
                [ClickStart MicAudioButton (Normal micStream);
                 DataAvailable MicAudioButton chunk1;
                 DataAvailable MicAudioButton chunk2]
                MicAudioButton chunk1) as H.
  cbv zeta in H. destruct H as (_ & H1 & _ & _ & H2).
  split.
  - rewrite H1. vm_compute. reflexivity.
  - rewrite (H2 (ClickStop MicAudioButton) I). vm_compute. reflexivity.
Defined.

(** ** The counter *)

Section Counter.

(** Once positive, the counter is left alone by every event. *)
Lemma positive_iteration_step (p : Process) (e : Event) :
  0 < transcriptionIteration p ->
  transcriptionIteration (step p e) = transcriptionIteration p.
Proof.
  intros H. destruct e as [b g|b|b k|b data|k r].
  - now apply (handles_keep_transcript (ClickStart b g) I p).
  - now apply (handles_keep_transcript (ClickStop b) I p).
  - now apply (handles_keep_transcript (TrackEnded b k) I p).
  - destruct (ondataavailable_later b data p H) as [E _].
    unfold transcriptState in E. congruence.
  - apply (settle_keeps_iteration k r p).
Qed.

Lemma positive_iteration_run (es : list Event) (p : Process) :
  0 < transcriptionIteration p ->
  transcriptionIteration (run p es) = transcriptionIteration p /\
  firstBranchCount p es = 0%nat.
Proof.
  revert p. induction es as [|e es IH]; intros p H; simpl; [auto|].
  pose proof (positive_iteration_step p e H) as E.
  destruct (IH (step p e)) as [E1 E2]; [lia|].
  split; [congruence|]. rewrite E2.
  destruct e; simpl; try reflexivity.
  destruct (Z.eqb_spec (transcriptionIteration p) 0); [lia|reflexivity].
Qed.

(** The first-merge branch runs at most once, from any state. *)
Lemma firstBranchCount_once (es : list Event) (p : Process) :
  (firstBranchCount p es <= 1)%nat.
Proof.
  revert p. induction es as [|e es IH]; intros p; simpl; [lia|].
  destruct (takesFirstBranch p e) eqn:T.
  - destruct e as [| | |b data|]; simpl in T; try discriminate.
    apply Z.eqb_eq in T.
    destruct (ondataavailable_first b data p T) as [E _].
    unfold transcriptState in E.
    assert (H1 : 0 < transcriptionIteration (step p (DataAvailable b data)))
      by (inversion E; lia).
    destruct (positive_iteration_run es _ H1) as [_ E2]. rewrite E2. lia.
  - specialize (IH (step p e)). lia.
Qed.

End Counter.

(** C10. The counter belongs to the module and nothing resets it: once
    positive it keeps its value through every event of either button, the
    first-merge branch runs at most once in any run, and a session started
    afterwards finds the anchor and the text as they were, which its
    arrivals do not reassign. *)
Theorem iteration_never_reset (p : Process) (es : list Event) :
  (firstBranchCount p es <= 1)%nat /\
  (0 < transcriptionIteration p ->
   0 < transcriptionIteration (run p es) /\
   transcriptionIteration (run p es) = transcriptionIteration p /\
   firstBranchCount p es = 0%nat /\
   (forall b g, transcriptState b (step p (ClickStart b g)) = transcriptState b p) /\
   (forall b data, transcriptState b (step p (DataAvailable b data)) = transcriptState b p)).
Proof.
  split; [apply firstBranchCount_once|]. intros H.
  destruct (positive_iteration_run es p H) as [E1 E2].
  repeat split; try assumption; try lia.
  - intros b g.
    destruct (handles_keep_transcript (ClickStart b g) I p) as (A & B & C).
    unfold transcriptState. simpl in *. unfold step, exec, handle. congruence.
  - intros b data. now destruct (ondataavailable_later b data p H).
Qed.

(** After the first merge of the microphone session, the desktop button is
    started and receives its first chunk. *)
Lemma iteration_never_reset_witness :
  0 < transcriptionIteration
        (run helloFirstMerge
           [ClickStart DesktopAudioButton (Normal displayStream);
            DataAvailable DesktopAudioButton chunk1]) /\
  firstBranchCount helloFirstMerge
    [ClickStart DesktopAudioButton (Normal displayStream);
     DataAvailable DesktopAudioButton chunk1] = 0%nat.
Proof.
  destruct (iteration_never_reset helloFirstMerge
              [ClickStart DesktopAudioButton (Normal displayStream);
               DataAvailable DesktopAudioButton chunk1]) as [_ H].
  destruct H as (H1 & _ & H2 & _); [vm_compute; reflexivity|].
  split; [exact H1 | exact H2].
Defined.

(** ** Two buttons, one transcript *)

(** Whichever button receives the chunk, the same three variables are
    updated, and in the same way. *)
Lemma arrival_updates_shared_transcript (p : Process) (b b' : Button) (data data' : Blob) :
  transcriptState b (step p (DataAvailable b data)) =
  transcriptState b' (step p (DataAvailable b' data')).
Proof.
  destruct p as [f tx n m d pe ed co].
  unfold step, exec, handle, ondataavailable, bind, gets, modify, dispatch.
  destruct b, b'; simpl; destruct (n =? 0); simpl;
    match goal with |- context [0 <? ?x] => destruct (0 <? x) end; reflexivity.
Qed.

(** C1, as the code has it. Each button has its own chunk array, recorder
    and stream: an event of one button, and every settlement, leaves those
    of the other button unchanged.  The anchor, the text and the counter
    are module-level and common to both: a chunk arriving at either button
    updates the same three variables in the same way. *)
Theorem instances_apart_transcript_shared (p : Process) (e : Event) (b : Button) :
  eventButton e <> Some b ->
  instance b (step p e) = instance b p /\
  (forall q, transcriptState b q = transcriptState (other b) q) /\
  (forall data data',
      transcriptState b (step p (DataAvailable b data)) =
      transcriptState (other b) (step p (DataAvailable (other b) data'))).
Proof.
  intros He. split; [exact (handles_keep_other_instance b e He p)|].
  split; [reflexivity|].
  intros data data'. apply arrival_updates_shared_transcript.
Qed.

Lemma instances_apart_transcript_shared_witness :
  instance DesktopAudioButton (step bothRecording (DataAvailable MicAudioButton chunk1)) =
    instance DesktopAudioButton bothRecording.
Proof.
  apply (instances_apart_transcript_shared bothRecording
           (DataAvailable MicAudioButton chunk1) DesktopAudioButton).
  simpl. discriminate.
Defined.

(** C1, as stated, fails. A merge of the microphone session changes the
    anchor and the counter the desktop session works with; the desktop
    session's own first merge then ends with another anchor and another
    text than it does alone. *)
Lemma shared_transcript_counterexample :
  transcriptState DesktopAudioButton bothRecording = ("", "", 0) /\
  transcriptState DesktopAudioButton
    (run bothRecording
       [DataAvailable MicAudioButton chunk1; Settle 0 (Fulfilled "Hello")]) =
    ("Hello", "", 1) /\
  transcriptState DesktopAudioButton desktopAlone = ("Good morning", "", 1) /\
  transcriptState DesktopAudioButton desktopAfterMic = ("Hello", "morning", 1).
Proof. repeat split; vm_compute; reflexivity. Qed.

(** ** A granted start, and the streams it leaves *)

(** A granted start, spelled out: the stream is stored (prepared for the
    desktop) beside a new recorder, and the recorder is started at the
    button's interval; on a stream with no live track [start] throws and
    the error is logged. *)
Lemma captureAudio_granted (b : Button) (s : Stream) (p : Process) :
  captureAudio b (Normal s) p =
    if active (preparedStream b s)
    then (setInstance b
            (mkInstance [] (Some (mkRecorder recording (Some (timeSlice b))))
               (Some (preparedStream b s)) (editorRef (instance b p)))
            p,
          Normal tt)
    else (setConsole (console p ++ [LogError NotSupportedError])
            (setInstance b
               (mkInstance [] (Some newMediaRecorder)
                  (Some (preparedStream b s)) (editorRef (instance b p)))
               p),
          Normal tt).
Proof.
  destruct p as [f tx n m d pe ed co].
  destruct b; unfold captureAudio, tryCatch, bind, await, gets, modify, onRecorder, start,
    preparedStream, recorderStream; simpl.
  - destruct (active s); reflexivity.
  - destruct (active (attachOnended (stopVideoTracks s))); reflexivity.
Qed.

Section DesktopStreams.

Lemma endedOrSame_refl (t : Track) : endedOrSame t t.
Proof. unfold endedOrSame. auto. Qed.

Lemma wearsDown_refl (s : Stream) : wearsDown s s.
Proof. induction s; constructor; auto using endedOrSame_refl. Qed.

Lemma wearsDown_trans (s t u : Stream) :
  wearsDown s t -> wearsDown t u -> wearsDown s u.
Proof.
  intros H. revert u. induction H as [|a b' l l' Hab Hl IH]; intros u Hu;
    inversion Hu; subst; constructor.
  - unfold endedOrSame in *. intuition congruence.
  - now apply IH.
Qed.

Lemma wearsDown_stopAll (s : Stream) : wearsDown s (stopAllTracks s).
Proof.
  induction s as [|[k r h] s IH]; constructor; [|exact IH].
  unfold endedOrSame. simpl. auto.
Qed.

Lemma wearsDown_setNth (s : Stream) (k : nat) (t : Track) :
  nth_error s k = Some t ->
  wearsDown s (setNth k (mkTrack (kind t) ended (onended t)) s).
Proof.
  revert k. induction s as [|a s IH]; intros [|k] H; simpl in *; try discriminate.
  - inversion H; subst a. constructor; [|apply wearsDown_refl].
    unfold endedOrSame. simpl. auto.
  - constructor; [apply endedOrSame_refl | now apply IH].
Qed.

(** A worn stream stops to the same stream. *)
Lemma wearsDown_stopped (s s' : Stream) :
  wearsDown s s' -> stopAllTracks s' = stopAllTracks s.
Proof.
  induction 1 as [|[k r h] [k' r' h'] l l' (Hk & Hh & _) Hl IH]; simpl in *;
    [reflexivity|].
  subst. now rewrite IH.
Qed.







End DesktopStreams.

Section StreamSteps.

Variable b : Button.

Lemma instance_of_quiet (p q : Process) :
  quiet p = quiet q -> instance b p = instance b q.
Proof.
  destruct p, q. unfold quiet, setConsole. simpl. intros H.
  inversion H. now destruct b.
Qed.

Lemma streamWears_same (p q : Process) :
  instance b q = instance b p -> streamWears b p q.
Proof.
  unfold streamWears. intros ->.
  destruct (mediaStream (instance b p)); [apply wearsDown_refl | exact I].
Qed.

Lemma stopAudio_stream (p : Process) : streamWears b p (step p (ClickStop b)).
Proof.
  destruct (stopAudio_instance b p) as [E _].
  apply instance_of_quiet in E. unfold streamWears. rewrite E.
  destruct p as [f tx n m d pe ed co].
  destruct b; simpl; unfold stopped; simpl;
    match goal with
    | |- context [mediaStream ?i] => destruct (mediaStream i)
    end; simpl; auto using wearsDown_stopAll.
Qed.

Lemma trackEnded_stream (k : nat) (p : Process) :
  streamWears b p (step p (TrackEnded b k)).
Proof.
  destruct p as [f tx n m d pe ed co].
  unfold streamWears, step, exec, handle, trackEnded, trackOnended,
    inactivateIfEnded, onRecorder, recorderStream, bind, gets, modify, ret.
  destruct b; simpl.
  - destruct m as [ch r [s|] e]; simpl; [|exact I].
    destruct (nth_error s k) as [t|] eqn:Hk; simpl; [|apply wearsDown_refl].
    destruct (readyState t); simpl; [|apply wearsDown_refl].
    pose proof (wearsDown_setNth s k t Hk) as W.
    destruct r as [[[] ts]|]; destruct (onended t); simpl;
      try match goal with |- context [active ?x] => destruct (active x) end;
      simpl; exact W.
  - destruct d as [ch r [s|] e]; simpl; [|exact I].
    destruct (nth_error s k) as [t|] eqn:Hk; simpl; [|apply wearsDown_refl].
    destruct (readyState t); simpl; [|apply wearsDown_refl].
    pose proof (wearsDown_setNth s k t Hk) as W.
    destruct r as [[[] ts]|]; destruct (onended t); simpl;
      try match goal with |- context [active ?x] => destruct (active x) end;
      simpl; exact W.
Qed.

Lemma ondataavailable_instance (data : Blob) (p : Process) :
  mediaStream (instance b (step p (DataAvailable b data))) = mediaStream (instance b p) /\
  mediaRecorder (instance b (step p (DataAvailable b data))) = mediaRecorder (instance b p).
Proof.
  destruct p as [f tx n m d pe ed co].
  unfold step, exec, handle, ondataavailable, bind, gets, modify, dispatch.
  destruct b; simpl; destruct (n =? 0); simpl;
    match goal with |- context [0 <? ?x] => destruct (0 <? x) end; split; reflexivity.
Qed.

(** Short of a granted start of its own, whatever happens leaves a button
    the stream it has, some tracks possibly ended. *)
Lemma stream_wears_step (p : Process) (e : Event) :
  isGrantedStart b e = false -> streamWears b p (step p e).
Proof.
  intros G.
  assert (O : forall b', b' <> b -> eventButton e = Some b' -> streamWears b p (step p e)).
  { intros b' Hb He. apply streamWears_same.
    apply (handles_keep_other_instance b e). rewrite He. congruence. }
  assert (D : forall x y : Button, {x = y} + {x <> y}) by decide equality.
  destruct e as [b' [s|err]|b'|b' k|b' data|k r].
  - apply (O b'); [|reflexivity]. intros E; subst b'. destruct b; simpl in G; discriminate.
  - apply streamWears_same. destruct p, b, b'; reflexivity.
  - destruct (D b' b) as [->|N]; [apply stopAudio_stream | exact (O b' N eq_refl)].
  - destruct (D b' b) as [->|N]; [apply trackEnded_stream | exact (O b' N eq_refl)].
  - destruct (D b' b) as [->|N]; [|exact (O b' N eq_refl)].
    unfold streamWears. destruct (ondataavailable_instance data p) as [-> _].
    destruct (mediaStream (instance b p)); [apply wearsDown_refl | exact I].
  - apply streamWears_same. apply (handles_keep_other_instance b (Settle k r)).
    discriminate.
Qed.

End StreamSteps.




(** * Further properties *)

(** ** Starting *)

Section Prepared.

Variable s : Stream.

Lemma active_attachOnended (l : Stream) : active (attachOnended l) = active l.
Proof.
  unfold active, attachOnended. induction l as [|[k r h] l IH]; simpl; [reflexivity|].
  now rewrite IH.
Qed.

(** After line 55 a desktop stream is active exactly when it has a live
    audio track. *)
Lemma active_prepared_desktop :
  active (preparedStream DesktopAudioButton s) =
    existsb (fun t => negb (isVideo t) && isLive t) s.
Proof.
  unfold preparedStream. simpl. rewrite active_attachOnended.
  unfold active, stopVideoTracks.
  induction s as [|[[] r h] l IH]; simpl; [reflexivity| |]; now rewrite IH.
Qed.

End Prepared.

(** X1. [captureAudio] never throws, whatever [getMediaStream] answers and
    whatever state the button is in: a rejection of [getMediaStream], and
    the throw of [recorder.start] on a stream with no live track, are caught
    by the [try] of lines 48-109, and what was caught is the one line the
    call adds to the console. *)
Theorem captureAudio_never_throws
    (b : Button) (getMediaStream : Completion Stream) (p : Process) :
  snd (captureAudio b getMediaStream p) = Normal tt /\
  console (step p (ClickStart b getMediaStream)) =
    console p ++
      match getMediaStream with
      | Throw err => [LogError err]
      | Normal s =>
          if active (preparedStream b s) then [] else [LogError NotSupportedError]
      end.
Proof.
  unfold step, exec, handle. destruct getMediaStream as [s|err].
  - rewrite captureAudio_granted.
    destruct (active (preparedStream b s)); destruct p, b; simpl;
      now rewrite ?app_nil_r.
  - now destruct p, b.
Qed.

(** X2. There is no guard on the state: whatever the button was doing
    (idle, recording, stopped), a granted start puts the granted stream
    (video stopped and handlers attached, for the desktop) and a new
    recorder in the button's cells.  The recorder records at the button's
    interval, 5000 ms for the microphone and 10000 ms for the desktop, when
    the stream has a live track left (for the desktop: a live audio track),
    and is left inactive otherwise.  The other button, the transcript, the
    promises in flight and the editors are as before. *)
Theorem granted_start_records (b : Button) (s : Stream) (p : Process) :
  let p' := step p (ClickStart b (Normal s)) in
  let recordable :=
    match b with
    | MicAudioButton => existsb isLive s
    | DesktopAudioButton => existsb (fun t => negb (isVideo t) && isLive t) s
    end in
  mediaStream (instance b p') = Some (preparedStream b s) /\
  mediaRecorder (instance b p') =
    Some (if recordable
          then mkRecorder recording
                 (Some (match b with MicAudioButton => 5000 | DesktopAudioButton => 10000 end))
          else mkRecorder inactive None) /\
  isRecording (instance b p') = recordable /\
  instance (other b) p' = instance (other b) p /\
  transcriptState b p' = transcriptState b p /\
  pending p' = pending p /\
  editors p' = editors p.
Proof.
  cbv zeta. unfold step, exec, handle. rewrite captureAudio_granted.
  destruct b.
  - change (active (preparedStream MicAudioButton s)) with (existsb isLive s).
    destruct (existsb isLive s); destruct p; repeat split.
  - rewrite active_prepared_desktop.
    destruct (existsb (fun t => negb (isVideo t) && isLive t) s); destruct p;
      repeat split.
Qed.

Section Tracks.

Variable s : Stream.

Lemma stopVideoTracks_kinds : map kind (stopVideoTracks s) = map kind s.
Proof.
  unfold stopVideoTracks. rewrite map_map. apply map_ext.
  intros [[] r h]; reflexivity.
Qed.

Lemma prepared_desktop_tracks :
  preparedStream DesktopAudioButton s =
    map (fun t => mkTrack (kind t) (if isVideo t then ended else readyState t) true) s.
Proof.
  unfold preparedStream, attachOnended, stopVideoTracks. simpl.
  rewrite map_map. apply map_ext. intros [[] r h]; reflexivity.
Qed.

End Tracks.

(** X3. After a granted desktop start no video track is live, whatever the
    stream held; the audio tracks are in the state they came in; every
    track carries the [onended] handler; and the tracks are the same in
    number, kind and order.  A microphone start leaves the stream as it
    came. *)
Theorem desktop_start_ends_video (s : Stream) (p : Process) :
  let after b := mediaStream (instance b (step p (ClickStart b (Normal s)))) in
  (exists s',
      after DesktopAudioButton = Some s' /\
      forallb (fun t => implb (isVideo t) (isEnded t)) s' = true /\
      forallb onended s' = true /\
      map kind s' = map kind s /\
      map readyState (filter (fun t => negb (isVideo t)) s') =
        map readyState (filter (fun t => negb (isVideo t)) s)) /\
  after MicAudioButton = Some s.
Proof.
  cbv zeta. unfold step, exec, handle. rewrite !captureAudio_granted.
  split.
  - exists (preparedStream DesktopAudioButton s).
    split; [destruct (active (preparedStream DesktopAudioButton s)); destruct p;
            reflexivity|].
    rewrite prepared_desktop_tracks.
    repeat split.
    + induction s as [|[[] r h] l IH]; simpl; auto.
    + induction s as [|[k r h] l IH]; simpl; auto.
    + rewrite map_map. apply map_ext. now intros [k r h].
    + induction s as [|[[] r h] l IH]; simpl; auto. now rewrite IH.
  - destruct (active (preparedStream MicAudioButton s)); destruct p; reflexivity.
Qed.


(** ** Stopping a started session *)

Section StopAfterStart.

Variable b : Button.

Lemma streamWears_trans (p q r : Process) :
  streamWears b p q -> streamWears b q r -> streamWears b p r.
Proof.
  unfold streamWears.
  destruct (mediaStream (instance b p)), (mediaStream (instance b q)),
    (mediaStream (instance b r)); try contradiction; auto.
  apply wearsDown_trans.
Qed.

Lemma stream_wears_run (es : list Event) (p : Process) :
  forallb (fun e => negb (isGrantedStart b e)) es = true ->
  streamWears b p (run p es).
Proof.
  revert p. induction es as [|e es IH]; intros p H; simpl in *.
  - now apply streamWears_same.
  - apply andb_prop in H. destruct H as [He H].
    apply streamWears_trans with (step p e); [|now apply IH].
    apply stream_wears_step. now destruct (isGrantedStart b e).
Qed.

(** No event takes a recorder or a stream away from a button. *)
Lemma handles_keep_handles (e : Event) : through (keepsHandles b) (handle e).
Proof.
  assert (Hr : forall p, keepsHandles b p p) by (intros p H; exact H).
  assert (Ht : forall p q r,
             keepsHandles b p q -> keepsHandles b q r -> keepsHandles b p r)
    by (unfold keepsHandles; auto).
  destruct e as [b' g|b'|b' k|b' data|k r];
    unfold_handlers; through_handler Hr Ht;
    try (intros H; exact H);
    destruct b, b'; intros H; try exact H;
    match goal with
    | p : Process |- _ =>
        destruct p as [f tx n [c1 [r1|] [s1|] e1] [c2 [r2|] [s2|] e2] pe ed co];
        try discriminate; reflexivity
    end.
Qed.

End StopAfterStart.

(** X5. Once a start has been granted, and as long as the button is not
    granted another, a click on stop stops that session whatever happened
    in between (chunks, settlements, track ends, rejected starts, events
    of the other button): the recorder is inactive, the stream is the one
    that was granted with every track ended, and the stop does not
    throw. *)
Theorem stop_after_start_is_stopped
    (b : Button) (s : Stream) (es : list Event) (p : Process) :
  forallb (fun e => negb (isGrantedStart b e)) es = true ->
  let q := run (step p (ClickStart b (Normal s))) es in
  isStopped (instance b (step q (ClickStop b))) = true /\
  mediaStream (instance b (step q (ClickStop b))) =
    Some (stopAllTracks (preparedStream b s)) /\
  snd (stopAudio b q) = Normal tt.
Proof.
  intros G. cbv zeta.
  set (p0 := step p (ClickStart b (Normal s))).
  assert (S0 : mediaStream (instance b p0) = Some (preparedStream b s) /\
               hasHandles (instance b p0) = true).
  { subst p0. unfold step, exec, handle. rewrite captureAudio_granted.
    destruct (active (preparedStream b s)); destruct p, b; split; reflexivity. }
  destruct S0 as [S0 H0].
  assert (H : hasHandles (instance b (run p0 es)) = true).
  { apply (through_run (keepsHandles b)
             (fun p H => H) (fun p q r H1 H2 H => H2 (H1 H)) p0 es); [|exact H0].
    intros e _. apply handles_keep_handles. }
  pose proof (stream_wears_run b es p0 G) as W.
  unfold streamWears in W. rewrite S0 in W.
  destruct (stopAudio_instance b (run p0 es)) as [E T].
  apply (instance_of_quiet b) in E.
  assert (E' : instance b (step (run p0 es) (ClickStop b)) =
               stopped (instance b (run p0 es))).
  { rewrite E. destruct (run p0 es). destruct b; reflexivity. }
  rewrite E'. clear E E'.
  destruct (instance b (run p0 es)) as [c [[st ts]|] [tr|] ed]; try discriminate.
  simpl in W. unfold isStopped, stopped. simpl.
  rewrite (wearsDown_stopped _ _ W).
  repeat split; [apply stopAllTracks_ended | exact T].
Qed.

Lemma stop_after_start_is_stopped_witness :
  isStopped
    (instance MicAudioButton
       (step (run (step (initial 0 1) (ClickStart MicAudioButton (Normal micStream)))
                [DataAvailable MicAudioButton chunk1;
                 ClickStart MicAudioButton (Throw NotAllowedError);
                 ClickStart DesktopAudioButton (Normal displayStream)])
          (ClickStop MicAudioButton))) = true.
Proof.
  apply (stop_after_start_is_stopped MicAudioButton micStream
           [DataAvailable MicAudioButton chunk1;
            ClickStart MicAudioButton (Throw NotAllowedError);
            ClickStart DesktopAudioButton (Normal displayStream)]
           (initial 0 1)).
  reflexivity.
Defined.

(** ** Stopping and the promises in flight *)

(** X6. Stopping cancels nothing: the promises in flight, the transcript,
    the editors and the chunk arrays are as before the stop, and a promise
    that settles after the stop has the effect it would have had before:
    stop and settlement commute. *)
Theorem stop_cancels_nothing (b : Button) (n : nat) (r : Response) (p : Process) :
  pending (step p (ClickStop b)) = pending p /\
  transcriptState b (step p (ClickStop b)) = transcriptState b p /\
  editors (step p (ClickStop b)) = editors p /\
  chunks (instance b (step p (ClickStop b))) = chunks (instance b p) /\
  step (step p (ClickStop b)) (Settle n r) = step (step p (Settle n r)) (ClickStop b).
Proof.
  destruct p as [f tx it m d pe ed co].
  assert (Hs : forall q, pending q = pe ->
                 settle n r q =
                   match nth_error pe n with
                   | Some t =>
                       match r with
                       | Fulfilled v => callback t v (setPending (removeNth n pe) q)
                       | Rejected => (setPending (removeNth n pe) q, Normal tt)
                       end
                   | None => (q, Normal tt)
                   end).
  { intros q Hq. unfold settle, bind, gets, modify, ret. rewrite Hq.
    destruct (nth_error pe n); [destruct r|]; reflexivity. }
  destruct b.
  - destruct m as [ch [[[] ts]|] [s|] e]; repeat split;
      unfold step, exec, handle; rewrite !Hs by reflexivity;
      destruct (nth_error pe n) as [[| |]|]; destruct r; reflexivity.
  - destruct d as [ch [[[] ts]|] [s|] e]; repeat split;
      unfold step, exec, handle; rewrite !Hs by reflexivity;
      destruct (nth_error pe n) as [[| |]|]; destruct r; reflexivity.
Qed.

(** ** The text *)

Section MoreStrings.

Lemma append_assoc (s t u : string) :
  ((s ++ t) ++ u)%string = (s ++ (t ++ u))%string.
Proof.
  induction s as [|c s IH]; simpl; [reflexivity | now rewrite IH].
Qed.

Lemma length_append (s t : string) :
  String.length (s ++ t) = (String.length s + String.length t)%nat.
Proof.
  induction s as [|c s IH]; simpl; [reflexivity | now rewrite IH].
Qed.

Lemma prefix_append (s t : string) : prefix s (s ++ t) = true.
Proof.
  induction s as [|c s IH]; simpl; [now destruct t|].
  destruct (ascii_dec c c); [exact IH | contradiction].
Qed.

Lemma substring_all (s : string) : substring 0 (String.length s) s = s.
Proof.
  induction s as [|c s IH]; simpl; [reflexivity | now rewrite IH].
Qed.

Lemma substring_skip (a r : string) (m : nat) :
  substring (String.length a) m (a ++ r) = substring 0 m r.
Proof.
  induction a as [|c a IH]; simpl; [reflexivity | exact IH].
Qed.

(** Slicing off a prefix gives the remainder. *)
Lemma slice_after_prefix (a r : string) :
  JS.slice (a ++ r) (JS.length a) (JS.length (a ++ r)) = r.
Proof.
  unfold JS.slice, JS.length. rewrite length_append.
  destruct (Z.ltb_spec (Z.of_nat (String.length a)) 0); [lia|].
  destruct (Z.ltb_spec (Z.of_nat (String.length a + String.length r)) 0); [lia|].
  replace (Z.to_nat (Z.min (Z.of_nat (String.length a))
                       (Z.of_nat (String.length a + String.length r))))
    with (String.length a) by lia.
  replace (Z.to_nat (Z.max
                       (Z.min (Z.of_nat (String.length a + String.length r))
                          (Z.of_nat (String.length a + String.length r)) -
                        Z.min (Z.of_nat (String.length a))
                          (Z.of_nat (String.length a + String.length r))) 0))
    with (String.length r) by lia.
  rewrite substring_skip. apply substring_all.
Qed.

Lemma trimStart_fixed (c : ascii) (s : string) :
  JS.isWhiteSpace c = false -> JS.trimStart (String c s) = String c s.
Proof. intros H. simpl. now rewrite H. Qed.

Lemma trimEnd_twice (s : string) : JS.trimEnd (JS.trimEnd s) = JS.trimEnd s.
Proof.
  induction s as [|c s IH]; simpl; [reflexivity|].
  destruct (JS.trimEnd s) as [|d t] eqn:E.
  - destruct (JS.isWhiteSpace c) eqn:W; simpl; [reflexivity|]. now rewrite W.
  - simpl. simpl in IH.
    destruct (match JS.trimEnd t with
              | "" => if JS.isWhiteSpace d then "" else String d ""
              | String a0 s0 => String d (String a0 s0)
              end) eqn:F; [discriminate|].
    now rewrite IH.
Qed.

(** Trimming what is trimmed changes nothing. *)
Lemma trim_twice (s : string) : JS.trim (JS.trim s) = JS.trim s.
Proof.
  unfold JS.trim.
  destruct (JS.trimEnd (JS.trimStart s)) as [|c t] eqn:E; [reflexivity|].
  pose proof (trim_head s c t E) as W.
  rewrite (trimStart_fixed _ _ W), <- E. apply trimEnd_twice.
Qed.

End MoreStrings.

(** X7. With a service whose answer begins with the anchor, a later merge
    appends exactly what follows the anchor, trimmed: the anchor is not
    repeated, and the text before the merge is kept as it was. *)
Theorem prefix_stable_merge_appends_rest
    (p : Process) (n : nat) (blob : Blob) (rest : string) :
  nth_error (pending p) n = Some (TranscribeThenAppend blob) ->
  transcriptionText
    (step p (Settle n (Fulfilled (firstString p ++ rest)%string))) =
    (transcriptionText p ++ JS.trim rest)%string.
Proof.
  intros Hn. unfold step, exec, handle.
  rewrite (settle_fulfilled _ _ _ _ Hn). simpl.
  now rewrite slice_after_prefix.
Qed.

Lemma prefix_stable_merge_appends_rest_witness :
  transcriptionText
    (step shortAnswerState (Settle 0 (Fulfilled "Hello, how are you? "))) =
    "Hello, how are you?".
Proof.
  apply (prefix_stable_merge_appends_rest shortAnswerState 0
           (newBlob [chunk1; chunk2] "audio/wav;codecs=opus") ", how are you? ").
  reflexivity.
Defined.

(** X8. Whatever settles, the text changes only by having a fragment
    appended, and the fragment is trimmed: it neither starts nor ends with
    white space, so successive fragments are joined with nothing between
    them. *)
Theorem settlement_appends_trimmed_fragment (p : Process) (n : nat) (r : Response) :
  exists fragment,
    transcriptionText (step p (Settle n r)) =
      (transcriptionText p ++ fragment)%string /\
    JS.trim fragment = fragment.
Proof.
  destruct (settle_text p n r) as [E | [v E]].
  - exists "". now rewrite E, append_empty_r.
  - eexists. split; [exact E|]. apply trim_twice.
Qed.

(** One event on a process whose counter is positive: the counter stays,
    and the text is extended. *)
Lemma positive_step_extends (p : Process) (e : Event) :
  0 < transcriptionIteration p ->
  exists fragment,
    transcriptionText (step p e) = (transcriptionText p ++ fragment)%string.
Proof.
  intros H. destruct e as [b g|b|b k|b data|k r].
  - exists "". rewrite append_empty_r.
    now apply (handles_keep_transcript (ClickStart b g) I p).
  - exists "". rewrite append_empty_r.
    now apply (handles_keep_transcript (ClickStop b) I p).
  - exists "". rewrite append_empty_r.
    now apply (handles_keep_transcript (TrackEnded b k) I p).
  - exists "". rewrite append_empty_r.
    destruct (ondataavailable_later b data p H) as [E _].
    unfold transcriptState in E. congruence.
  - destruct (settle_text p k r) as [E | [v E]].
    + exists "". now rewrite E, append_empty_r.
    + eexists. exact E.
Qed.

(** X9. Once the first chunk has been handled (the counter is positive),
    the text is never reassigned or shortened by any event of either
    button: after any run it begins with what it was and is at least as
    long. *)
Theorem text_only_grows (p : Process) (es : list Event) :
  0 < transcriptionIteration p ->
  prefix (transcriptionText p) (transcriptionText (run p es)) = true /\
  JS.length (transcriptionText p) <= JS.length (transcriptionText (run p es)).
Proof.
  intros H.
  assert (E : exists fragment,
             transcriptionText (run p es) = (transcriptionText p ++ fragment)%string).
  { revert p H. induction es as [|e es IH]; intros p H; simpl.
    - exists "". now rewrite append_empty_r.
    - destruct (positive_step_extends p e H) as [f1 E1].
      destruct (IH (step p e)) as [f2 E2].
      + rewrite (positive_iteration_step p e H). exact H.
      + exists (f1 ++ f2)%string. now rewrite E2, E1, append_assoc. }
  destruct E as [f E]. rewrite E. split; [apply prefix_append|].
  unfold JS.length. rewrite length_append. lia.
Qed.

Lemma text_only_grows_witness :
  prefix (transcriptionText shortAnswerState)
    (transcriptionText
       (run shortAnswerState
          [Settle 0 (Fulfilled "Hello there"); ClickStop MicAudioButton;
           DataAvailable DesktopAudioButton chunk1])) = true.
Proof.
  apply (text_only_grows shortAnswerState
           [Settle 0 (Fulfilled "Hello there"); ClickStop MicAudioButton;
            DataAvailable DesktopAudioButton chunk1]).
  vm_compute. reflexivity.
Defined.

(** ** The counter and the anchor *)

Section CounterValues.

(** While the counter is zero only an arrival changes it. *)
Lemma zero_iteration_step (p : Process) (e : Event) :
  transcriptionIteration p = 0 ->
  transcriptionIteration (step p e) = if isDataAvailable e then 1 else 0.
Proof.
  intros H. destruct e as [b g|b|b k|b data|k r]; simpl.
  - rewrite <- H. now apply (handles_keep_transcript (ClickStart b g) I p).
  - rewrite <- H. now apply (handles_keep_transcript (ClickStop b) I p).
  - rewrite <- H. now apply (handles_keep_transcript (TrackEnded b k) I p).
  - destruct (ondataavailable_first b data p H) as [E _].
    unfold transcriptState in E. congruence.
  - rewrite <- H. apply (settle_keeps_iteration k r p).
Qed.

Lemma zero_iteration_run (es : list Event) (p : Process) :
  transcriptionIteration p = 0 ->
  transcriptionIteration (run p es) = if existsb isDataAvailable es then 1 else 0.
Proof.
  revert p. induction es as [|e es IH]; intros p H; simpl; [exact H|].
  pose proof (zero_iteration_step p e H) as E.
  destruct (isDataAvailable e); simpl.
  - destruct (positive_iteration_run es (step p e)) as [E1 _]; [lia|]. congruence.
  - now apply IH.
Qed.

End CounterValues.

(** X10. The counter counts no merges: from module load it is 0 until the
    first chunk arrives at either button and 1 ever after, however many
    chunks arrive and merges complete. *)
Theorem iteration_is_zero_or_one (em ed : nat) (es : list Event) :
  transcriptionIteration (run (initial em ed) es) =
    if existsb isDataAvailable es then 1 else 0.
Proof.
  pose proof (zero_iteration_run es (initial em ed)) as H.
  apply H. reflexivity.
Qed.

Section Anchor.

Lemma countSetFirst_app (l l' : list Task) :
  countSetFirst (l ++ l') = (countSetFirst l + countSetFirst l')%nat.
Proof. unfold countSetFirst. now rewrite filter_app, length_app. Qed.

(** Removing a promise removes one anchor assignment exactly when it was
    one. *)
Lemma countSetFirst_removeNth (l : list Task) (n : nat) :
  (countSetFirst (removeNth n l) +
   match nth_error l n with
   | Some t => if isSetFirst t then 1 else 0
   | None => 0
   end)%nat = countSetFirst l.
Proof.
  revert n. induction l as [|t l IH]; intros [|n]; simpl; try reflexivity.
  - unfold countSetFirst. simpl. destruct (isSetFirst t); simpl; lia.
  - specialize (IH n). unfold countSetFirst in *. simpl.
    destruct (isSetFirst t); simpl; lia.
Qed.

(** Only a settlement changes the promises in flight by anything but the
    arrivals' additions. *)
Lemma handles_keep_pending (p : Process) (e : Event) :
  match e with DataAvailable _ _ | Settle _ _ => False | _ => True end ->
  pending (step p e) = pending p.
Proof.
  intros He.
  assert (T : through (fun p q => pending q = pending p) (handle e)).
  { assert (Hr : forall p : Process, pending p = pending p) by reflexivity.
    assert (Ht : forall p q r : Process,
               pending q = pending p -> pending r = pending q -> pending r = pending p)
      by (intros; congruence).
    destruct e as [b g|b|b k|b data|k r]; try contradiction;
      unfold_handlers; through_handler Hr Ht; destruct b; reflexivity. }
  exact (T p).
Qed.

Lemma anchorBudget_step (p : Process) (e : Event) :
  0 <= transcriptionIteration p ->
  ((if assignsAnchor p e then 1 else 0) + anchorBudget (step p e) <= anchorBudget p)%nat.
Proof.
  intros H0. unfold anchorBudget.
  destruct e as [b g|b|b k|b data|k r]; simpl.
  - rewrite (handles_keep_pending p (ClickStart b g) I).
    destruct (handles_keep_transcript (ClickStart b g) I p) as (_ & _ & E).
    unfold step, exec. rewrite E. lia.
  - rewrite (handles_keep_pending p (ClickStop b) I).
    destruct (handles_keep_transcript (ClickStop b) I p) as (_ & _ & E).
    unfold step, exec. rewrite E. lia.
  - rewrite (handles_keep_pending p (TrackEnded b k) I).
    destruct (handles_keep_transcript (TrackEnded b k) I p) as (_ & _ & E).
    unfold step, exec. rewrite E. lia.
  - destruct (Z.eq_dec (transcriptionIteration p) 0) as [Z|Z].
    + destruct (ondataavailable_first b data p Z) as [E Hp].
      unfold transcriptState in E. inversion E as [[E1 E2 E3]].
      rewrite Hp, E3, Z, countSetFirst_app. simpl. unfold countSetFirst at 2. simpl. lia.
    + assert (H1 : 0 < transcriptionIteration p) by lia.
      destruct (ondataavailable_later b data p H1) as [E Hp].
      unfold transcriptState in E. inversion E as [[E1 E2 E3]].
      rewrite Hp, E3, countSetFirst_app. unfold countSetFirst at 2. simpl. lia.
  - rewrite settle_pending.
    pose proof (settle_keeps_iteration k r p) as E. unfold sameIteration in E.
    unfold step, exec, handle. rewrite E.
    pose proof (countSetFirst_removeNth (pending p) k) as C.
    destruct r as [v|]; destruct (nth_error (pending p) k) as [t|];
      try destruct (isSetFirst t); lia.
Qed.

Lemma anchorAssignments_budget (es : list Event) (p : Process) :
  0 <= transcriptionIteration p ->
  (anchorAssignments p es <= anchorBudget p)%nat.
Proof.
  revert p. induction es as [|e es IH]; intros p H; simpl; [lia|].
  pose proof (anchorBudget_step p e H) as B.
  assert (H' : 0 <= transcriptionIteration (step p e))
    by exact (handles_keep_counting e p H).
  specialize (IH (step p e) H'). lia.
Qed.

(** The anchor changes only where line 86 runs. *)
Lemma anchor_changes_on_assignment (p : Process) (e : Event) :
  assignsAnchor p e = false -> firstString (step p e) = firstString p.
Proof.
  intros A. destruct e as [b g|b|b k|b data|k r].
  - now apply (handles_keep_transcript (ClickStart b g) I p).
  - now apply (handles_keep_transcript (ClickStop b) I p).
  - now apply (handles_keep_transcript (TrackEnded b k) I p).
  - destruct p as [f tx n m d pe ed co].
    unfold step, exec, handle, ondataavailable, bind, gets, modify, dispatch.
    destruct b; simpl; destruct (n =? 0); simpl;
      match goal with |- context [0 <? ?x] => destruct (0 <? x) end; reflexivity.
  - simpl in A. unfold step, exec, handle.
    destruct (nth_error (pending p) k) as [t|] eqn:Hk.
    + destruct r as [v|].
      * rewrite (settle_fulfilled _ _ _ _ Hk). destruct t; [discriminate| |]; reflexivity.
      * now rewrite (settle_rejected _ _ _ Hk).
    + now rewrite settle_none.
Qed.

End Anchor.

(** X11. In any run from module load the anchor is assigned at most once,
    by whichever button's first chunk came first; every other event,
    arrivals of later sessions included, leaves it as it is. *)
Theorem anchor_assigned_at_most_once (em ed : nat) (es : list Event) :
  (anchorAssignments (initial em ed) es <= 1)%nat /\
  (forall p e, assignsAnchor p e = false -> firstString (step p e) = firstString p).
Proof.
  split; [|exact anchor_changes_on_assignment].
  apply (anchorAssignments_budget es (initial em ed)). simpl. lia.
Qed.

(** ** Calls and summaries *)

(** X12. From module load, the first chunk to arrive puts three calls in
    flight (it is transcribed twice, once by each branch, and the text
    summarized) and every later chunk two; the blob is the same in the
    calls of one arrival. *)
Theorem calls_per_arrival (em ed : nat) (es : list Event) (b : Button) (data : Blob) :
  let p := run (initial em ed) es in
  let blob := newBlob (pushChunk (chunks (instance b p)) data) "audio/wav;codecs=opus" in
  pending (step p (DataAvailable b data)) =
    pending p ++
      (if existsb isDataAvailable es
       then [TranscribeThenAppend blob;
             SummarizeThenSetContent (transcriptionText p) (editorRef (instance b p))]
       else [TranscribeThenSetFirst blob; TranscribeThenAppend blob;
             SummarizeThenSetContent (firstString p) (editorRef (instance b p))]).
Proof.
  cbv zeta. pose proof (zero_iteration_run es (initial em ed) eq_refl) as H.
  destruct (existsb isDataAvailable es).
  - apply ondataavailable_later. lia.
  - now apply ondataavailable_first.
Qed.

(** X13. The last summary to arrive wins: when a summary is fulfilled, its
    text becomes the content of the editor it was requested for, whatever
    that editor showed and whichever text it summarizes, even a text older
    than the one behind the summary it replaces; other editors and the
    transcript are left alone. *)
Theorem last_summary_wins
    (p : Process) (n : nat) (text : string) (editor : nat) (summary : string) :
  nth_error (pending p) n = Some (SummarizeThenSetContent text editor) ->
  let p' := step p (Settle n (Fulfilled summary)) in
  latestSummary editor (editors p') = Some summary /\
  (forall e, e <> editor -> latestSummary e (editors p') = latestSummary e (editors p)) /\
  sameTranscript p p'.
Proof.
  intros Hn. cbv zeta. unfold step, exec, handle.
  rewrite (settle_fulfilled _ _ _ _ Hn). simpl.
  rewrite Nat.eqb_refl. repeat split.
  intros e He. destruct (Nat.eqb_spec editor e); [congruence|reflexivity].
Qed.

(** Two arrivals, then the summary of the second settles before the
    summary of the first. *)
Lemma last_summary_wins_witness :
  latestSummary 0
    (editors
       (step (run helloSecondMerge [Settle 1 (Fulfilled "newer")])
          (Settle 0 (Fulfilled "older")))) =
    Some "older".
Proof.
  apply (last_summary_wins (run helloSecondMerge [Settle 1 (Fulfilled "newer")])
           0 "" 0 "older").
  vm_compute. reflexivity.
Defined.

(** X14. Nothing but the fulfilment of a summary writes to an editor: no
    click, track end, chunk arrival, transcription or rejected call
    does. *)
Theorem editor_written_only_by_summary (p : Process) (e : Event) :
  deliversSummary p e = false -> editors (step p e) = editors p.
Proof.
  intros A.
  assert (Hr : forall p : Process, editors p = editors p) by reflexivity.
  assert (Ht : forall p q r : Process,
             editors q = editors p -> editors r = editors q -> editors r = editors p)
    by (intros; congruence).
  destruct e as [b g|b|b k|b data|k r].
  - assert (T : through (fun p q => editors q = editors p) (handle (ClickStart b g)))
      by (unfold_handlers; through_handler Hr Ht; destruct b; reflexivity).
    exact (T p).
  - assert (T : through (fun p q => editors q = editors p) (handle (ClickStop b)))
      by (unfold_handlers; through_handler Hr Ht; destruct b; reflexivity).
    exact (T p).
  - assert (T : through (fun p q => editors q = editors p) (handle (TrackEnded b k)))
      by (unfold_handlers; through_handler Hr Ht; destruct b; reflexivity).
    exact (T p).
  - assert (T : through (fun p q => editors q = editors p) (handle (DataAvailable b data)))
      by (unfold_handlers; through_handler Hr Ht; try reflexivity; destruct b; reflexivity).
    exact (T p).
  - simpl in A. unfold step, exec, handle.
    destruct (nth_error (pending p) k) as [t|] eqn:Hk.
    + destruct r as [v|].
      * rewrite (settle_fulfilled _ _ _ _ Hk). destruct t; [reflexivity|reflexivity|discriminate].
      * now rewrite (settle_rejected _ _ _ Hk).
    + now rewrite settle_none.
Qed.

Lemma editor_written_only_by_summary_witness :
  editors (step helloFirstMerge (DataAvailable MicAudioButton chunk2)) =
    editors helloFirstMerge.
Proof.
  apply (editor_written_only_by_summary helloFirstMerge
           (DataAvailable MicAudioButton chunk2)).
  reflexivity.
Defined.

(** ** The editor's placeholder *)

(** X15. The placeholder is "Untitled" on an empty document whatever the
    node; otherwise a heading of level 1, 2 or 3 gets "Heading" and its
    level, and nothing else gets a placeholder: a heading of another
    level, missing from the table, gets the empty string like any other
    node. *)
Theorem placeholder_cases (isEmpty : bool) (node : Node) :
  (isEmpty = true -> placeholder isEmpty node = "Untitled") /\
  (placeholder isEmpty node = "" <->
     isEmpty = false /\
     (typeName node <> "heading" \/ level node < 1 \/ 3 < level node)) /\
  (isEmpty = false -> typeName node = "heading" ->
   (level node = 1 -> placeholder isEmpty node = "Heading 1") /\
   (level node = 2 -> placeholder isEmpty node = "Heading 2") /\
   (level node = 3 -> placeholder isEmpty node = "Heading 3")).
Proof.
  destruct node as [ty lv]. unfold placeholder. simpl.
  split; [now intros ->|]. split.
  - destruct isEmpty; [split; [discriminate|intros [? _]; discriminate]|].
    destruct (String.eqb_spec ty "heading") as [E|E].
    + simpl. destruct (Z.eqb_spec lv 1); [split; [discriminate|intros [_ [?|?]]; [congruence|lia]]|].
      destruct (Z.eqb_spec lv 2); [split; [discriminate|intros [_ [?|?]]; [congruence|lia]]|].
      destruct (Z.eqb_spec lv 3); [split; [discriminate|intros [_ [?|?]]; [congruence|lia]]|].
      simpl. split; [intros _; split; [reflexivity|right; lia]|reflexivity].
    + split; [intros _; split; [reflexivity|now left]|reflexivity].
  - intros -> ->. simpl. repeat split; intros ->; reflexivity.
Qed.

Lemma placeholder_cases_witness :
  placeholder false (mkNode "heading" 2) = "Heading 2" /\
  placeholder false (mkNode "heading" 4) = "".
Proof.
  destruct (placeholder_cases false (mkNode "heading" 2)) as (_ & _ & H2).
  destruct (placeholder_cases false (mkNode "heading" 4)) as (_ & [_ H4] & _).
  split.
  - apply (H2 eq_refl eq_refl). reflexivity.
  - apply H4. split; [reflexivity|]. right. right. simpl. lia.
Defined.
